(** * flux::num — overflow-aware integer arithmetic (include/flux/core/numeric.hpp)

    A shallow embedding of the wrapping, overflow-detecting and
    policy-checked operations of [flux::num], and the properties that the
    accompanying description states about them.

    Values of a signed integral type [T] of width [bits] are integers of
    [Z] in [[min_of bits, max_of bits]]; the conversions to and from the
    unsigned counterpart [U] and the integer promotions of C++ are written
    out. *)

From Stdlib Require Import ZArith NArith Lia Bool String List.

Local Open Scope string_scope.
Local Open Scope Z_scope.

(** ** Outcomes of a call *)

(** A call either returns a value, or reports an unrecoverable failure
    through [runtime_error], or evaluates an arithmetic expression that C++
    leaves undefined (signed overflow, division by zero, [min / -1]); in a
    constant evaluation the last case means "not a constant expression". *)
Inductive outcome (A : Type) : Type :=
| Ret (a : A)
| Fail (msg : string)
| Undefined.

Arguments Ret {A} a.
Arguments Fail {A} msg.
Arguments Undefined {A}.

Definition bind {A B : Type} (c : outcome A) (k : A -> outcome B) : outcome B :=
  match c with
  | Ret a => k a
  | Fail msg => Fail msg
  | Undefined => Undefined
  end.

Notation "x <- c ;; k" := (bind c (fun x => k))
  (at level 61, c at next level, right associativity).

Definition returns {A : Type} (c : outcome A) : bool :=
  match c with Ret _ => true | _ => false end.

(** Modelled from the spec: [runtime_error] (flux/core/assert.hpp, not part
    of the sources at hand) signals an unrecoverable failure carrying the
    message and the call site; it does not return to its caller.  The call
    site is diagnostic only and is left out. *)
Definition runtime_error {A : Type} (msg : string) : outcome A := Fail msg.

(** ** Build configuration *)

Module overflow_policy.
Inductive t : Set := ignore | wrap | fail.
End overflow_policy.

Module divide_by_zero_policy.
Inductive t : Set := ignore | fail.
End divide_by_zero_policy.

(** What is fixed when the library is compiled: the width of [int] (it
    decides the integer promotions), whether the compiler has the
    overflow builtins ([detail::use_builtin_overflow_ops]), and the two
    policies of [flux::config]. *)
Record build : Set := {
  int_bits : Z;
  use_builtin_overflow_ops : bool;
  on_overflow : overflow_policy.t;
  on_divide_by_zero : divide_by_zero_policy.t
}.

(** ** Fixed-width integers *)

(** [std::numeric_limits<T>::min()] and [max()] of the signed type of width
    [bits]. *)
Definition min_of (bits : Z) : Z := - 2 ^ (bits - 1).
Definition max_of (bits : Z) : Z := 2 ^ (bits - 1) - 1.

Definition fits (bits z : Z) : bool := (min_of bits <=? z) && (z <=? max_of bits).

Definition in_range (bits z : Z) : Prop := min_of bits <= z <= max_of bits.

(** [static_cast<U>(x)]: the value modulo [2^bits]. *)
Definition to_unsigned (bits z : Z) : Z := z mod 2 ^ bits.

(** [static_cast<T>(x)]: the value of [T] congruent to [x] modulo [2^bits]. *)
Definition to_signed (bits z : Z) : Z :=
  let u := z mod 2 ^ bits in
  if u <? 2 ^ (bits - 1) then u else u - 2 ^ bits.

(** [template <std::signed_integral T> struct overflow_result]. *)
Record overflow_result : Set := {
  value : Z;
  overflowed : bool
}.

(** [__builtin_add_overflow], [__builtin_sub_overflow] and
    [__builtin_mul_overflow] are compiler intrinsics; by their
    documentation they compute the exact result in unbounded precision,
    store it converted to the type of the destination, and return whether
    the stored value differs from the exact one. *)
Definition builtin_overflow (bits exact : Z) : overflow_result :=
  {| value := to_signed bits exact;
     overflowed := negb (to_signed bits exact =? exact) |}.

Section Operations.

Variable B : build.
(** The width of the template argument [T]. *)
Variable bits : Z.

(** *** Native arithmetic *)

(** Operands of a type narrower than [int] are promoted to [int] before
    any arithmetic; operands of [T] are therefore computed with in a
    signed type of this width. *)
Definition promoted_bits : Z := Z.max bits (int_bits B).

(** The result [z] of a built-in operator on (promoted) signed operands:
    undefined when it is not representable. *)
Definition signed_arith (z : Z) : outcome Z :=
  if fits promoted_bits z then Ret z else Undefined.

(** The result [z] of a built-in operator on operands of type [U]: when
    [U] is narrower than [int] the operands are promoted to (signed)
    [int]; otherwise the arithmetic is that of [U], modulo [2^bits]. *)
Definition unsigned_arith (z : Z) : outcome Z :=
  if bits <? int_bits B then
    if fits (int_bits B) z then Ret z else Undefined
  else Ret (z mod 2 ^ bits).

(** [lhs / rhs] and [lhs % rhs] on operands of type [T], before any
    conversion of the result: truncating, undefined for a zero divisor
    and when the quotient is not representable. *)
Definition native_div (lhs rhs : Z) : outcome Z :=
  if rhs =? 0 then Undefined else signed_arith (Z.quot lhs rhs).

Definition native_mod (lhs rhs : Z) : outcome Z :=
  if rhs =? 0 then Undefined
  else _ <- signed_arith (Z.quot lhs rhs) ;; Ret (Z.rem lhs rhs).

(** [return e;] in a function returning [T]: the value of the promoted
    expression converted to [T]. *)
Definition return_as_T (e : outcome Z) : outcome Z :=
  r <- e ;; Ret (to_signed bits r).

(** *** Wrapping operations *)

Definition wrapping_add (lhs rhs : Z) : outcome Z :=
  r <- unsigned_arith (to_unsigned bits lhs + to_unsigned bits rhs) ;;
  Ret (to_signed bits r).

Definition wrapping_sub (lhs rhs : Z) : outcome Z :=
  r <- unsigned_arith (to_unsigned bits lhs - to_unsigned bits rhs) ;;
  Ret (to_signed bits r).

Definition wrapping_mul (lhs rhs : Z) : outcome Z :=
  r <- unsigned_arith (to_unsigned bits lhs * to_unsigned bits rhs) ;;
  Ret (to_signed bits r).

(** *** Overflow-detecting operations *)

Definition overflowing_add (lhs rhs : Z) : outcome overflow_result :=
  if use_builtin_overflow_ops B then
    Ret (builtin_overflow bits (lhs + rhs))
  else
    value <- wrapping_add lhs rhs ;;
    let overflowed :=
      Bool.eqb (lhs <? 0) (rhs <? 0) && negb (Bool.eqb (lhs <? 0) (value <? 0)) in
    Ret {| value := value; overflowed := overflowed |}.

Definition overflowing_sub (lhs rhs : Z) : outcome overflow_result :=
  if use_builtin_overflow_ops B then
    Ret (builtin_overflow bits (lhs - rhs))
  else
    value <- wrapping_sub lhs rhs ;;
    let overflowed :=
      ((0 <=? lhs) && (rhs <? 0) && (value <? 0))
      || ((lhs <? 0) && (0 <? rhs) && (0 <? value)) in
    Ret {| value := value; overflowed := overflowed |}.

(** In [lhs != 0 && value/lhs != rhs] the division is evaluated only when
    [lhs] is not zero. *)
Definition overflowing_mul (lhs rhs : Z) : outcome overflow_result :=
  if use_builtin_overflow_ops B then
    Ret (builtin_overflow bits (lhs * rhs))
  else
    value <- wrapping_mul lhs rhs ;;
    overflowed <-
      (if negb (lhs =? 0) then
         q <- native_div value lhs ;; Ret (negb (q =? rhs))
       else Ret false) ;;
    Ret {| value := value; overflowed := overflowed |}.

(** *** Policy-checked operations *)

(** [constant_evaluated] is the value of [std::is_constant_evaluated()]
    at the call. *)
Definition checked_add (constant_evaluated : bool) (lhs rhs : Z) : outcome Z :=
  if constant_evaluated then return_as_T (signed_arith (lhs + rhs))
  else
    match on_overflow B with
    | overflow_policy.ignore => return_as_T (signed_arith (lhs + rhs))
    | overflow_policy.wrap => wrapping_add lhs rhs
    | overflow_policy.fail =>
        res <- overflowing_add lhs rhs ;;
        _ <- (if overflowed res
              then runtime_error "signed overflow in addition"
              else Ret tt) ;;
        Ret (value res)
    end.

Definition checked_sub (constant_evaluated : bool) (lhs rhs : Z) : outcome Z :=
  if constant_evaluated then return_as_T (signed_arith (lhs - rhs))
  else
    match on_overflow B with
    | overflow_policy.ignore => return_as_T (signed_arith (lhs - rhs))
    | overflow_policy.wrap => wrapping_sub lhs rhs
    | overflow_policy.fail =>
        res <- overflowing_sub lhs rhs ;;
        _ <- (if overflowed res
              then runtime_error "signed overflow in subtraction"
              else Ret tt) ;;
        Ret (value res)
    end.

Definition checked_mul (constant_evaluated : bool) (lhs rhs : Z) : outcome Z :=
  if constant_evaluated then return_as_T (signed_arith (lhs * rhs))
  else
    match on_overflow B with
    | overflow_policy.ignore => return_as_T (signed_arith (lhs * rhs))
    | overflow_policy.wrap => wrapping_mul lhs rhs
    | overflow_policy.fail =>
        res <- overflowing_mul lhs rhs ;;
        _ <- (if overflowed res
              then runtime_error "signed overflow in multiplication"
              else Ret tt) ;;
        Ret (value res)
    end.

(** [for (U i{0}; i < exponent; i++) res = checked_mul(res, base, loc);]
    The counter runs from [0] up to the exponent, which it never exceeds,
    so the body is run once for each of the [todo = exponent - i]
    remaining values of [i], and a failing multiplication leaves the
    loop. *)
Fixpoint pow_loop (constant_evaluated : bool) (base : Z) (todo : nat) (res : Z)
  : outcome Z :=
  match todo with
  | O => Ret res
  | S todo' =>
      res' <- checked_mul constant_evaluated res base ;;
      pow_loop constant_evaluated base todo' res'
  end.

Definition checked_pow (constant_evaluated : bool) (base : Z) (exponent : N)
  : outcome Z :=
  pow_loop constant_evaluated base (N.to_nat exponent) 1.

Definition checked_div (constant_evaluated : bool) (lhs rhs : Z) : outcome Z :=
  if constant_evaluated then return_as_T (native_div lhs rhs)
  else
    match on_divide_by_zero B with
    | divide_by_zero_policy.ignore => return_as_T (native_div lhs rhs)
    | divide_by_zero_policy.fail =>
        _ <- (if rhs =? 0 then runtime_error "divide by zero" else Ret tt) ;;
        return_as_T (native_div lhs rhs)
    end.

Definition checked_mod (constant_evaluated : bool) (lhs rhs : Z) : outcome Z :=
  if constant_evaluated then return_as_T (native_mod lhs rhs)
  else
    match on_divide_by_zero B with
    | divide_by_zero_policy.ignore => return_as_T (native_mod lhs rhs)
    | divide_by_zero_policy.fail =>
        _ <- (if rhs =? 0 then runtime_error "divide by zero" else Ret tt) ;;
        return_as_T (native_mod lhs rhs)
    end.

End Operations.

(** ** Widths *)

(** The widths the operations are meant for: [T] has room for [T{1}] and
    [T{-1}], and a type narrower than [int] is narrower by two bits or more.
    Every implementation of C++ meets this: widths are multiples of the
    width of a byte, which is eight bits at least. *)
Definition well_sized (B : build) (bits : Z) : Prop :=
  2 <= bits /\ (bits < int_bits B -> bits + 2 <= int_bits B).

(** ** Template constraints *)

(** An integral type: its signedness and its width. *)
Record integral : Set := {
  is_signed : bool;
  width : Z
}.

Definition signed_integral (T : integral) : bool := is_signed T.

Definition numeric_min (T : integral) : Z :=
  if is_signed T then min_of (width T) else 0.

Definition numeric_max (T : integral) : Z :=
  if is_signed T then max_of (width T) else 2 ^ width T - 1.

(** [checked_sub] is a generic lambda [[]<std::signed_integral T>(T, T, ...)]:
    a call with operands of a type that does not satisfy the constraint is
    rejected by the compiler, there is no function to run. *)
Definition checked_sub_at (B : build) (T : integral) (constant_evaluated : bool)
  (lhs rhs : Z) : option (outcome Z) :=
  if signed_integral T then Some (checked_sub B (width T) constant_evaluated lhs rhs)
  else None.

(** ** The description's reading of [checked_pow] *)

(** "applying [checked_mul] [exponent] times starting from [T{1}]". *)
Definition iterated_checked_mul (B : build) (bits : Z) (constant_evaluated : bool)
  (base : Z) (exponent : nat) : outcome Z :=
  Nat.iter exponent
    (fun acc => r <- acc ;; checked_mul B bits constant_evaluated r base)
    (Ret 1).

(** ** Products of several factors *)

(** [detail::variadic_checked_mul_impl]: the overload for two operands is
    [checked_mul]; the overload for more multiplies the first two and goes
    on with the product and the rest.  [checked_mul] takes both operands at
    one type, so all factors are of the type [T]. *)
Fixpoint variadic_checked_mul_impl (B : build) (bits : Z) (constant_evaluated : bool)
  (lhs rhs : Z) (ts : list Z) : outcome Z :=
  match ts with
  | nil => checked_mul B bits constant_evaluated lhs rhs
  | (t :: ts')%list =>
      r <- checked_mul B bits constant_evaluated lhs rhs ;;
      variadic_checked_mul_impl B bits constant_evaluated r t ts'
  end.

Definition variadic_checked_mul (B : build) (bits : Z) (constant_evaluated : bool)
  (lhs rhs : Z) (ts : list Z) : outcome Z :=
  variadic_checked_mul_impl B bits constant_evaluated lhs rhs ts.

(** ** Vocabulary of the properties *)

(** The builds in which the multiplication in [U] cannot leave the type it
    is computed in: [T] is [int] or wider, or has less than half the width
    of [int]. *)
Definition product_stays (B : build) (bits : Z) : Prop :=
  int_bits B <= bits \/ 2 * bits < int_bits B.

(** The exact product of the factors [ts], from [p] on, and whether every
    product on the way is a value of [T]. *)
Definition product_from (p : Z) (ts : list Z) : Z := List.fold_left Z.mul ts p.

Fixpoint products_fit (bits p : Z) (ts : list Z) : bool :=
  match ts with
  | nil => true
  | (t :: ts')%list => fits bits (p * t) && products_fit bits (p * t) ts'
  end.

(** ** Some builds

    A compiler with a 32-bit [int], without and with the overflow builtins,
    under the strict and the wrapping policy. *)
Definition portable_strict : build :=
  {| int_bits := 32;
     use_builtin_overflow_ops := false;
     on_overflow := overflow_policy.fail;
     on_divide_by_zero := divide_by_zero_policy.fail |}.

Definition portable_wrap : build :=
  {| int_bits := 32;
     use_builtin_overflow_ops := false;
     on_overflow := overflow_policy.wrap;
     on_divide_by_zero := divide_by_zero_policy.fail |}.

Definition builtin_strict : build :=
  {| int_bits := 32;
     use_builtin_overflow_ops := true;
     on_overflow := overflow_policy.fail;
     on_divide_by_zero := divide_by_zero_policy.fail |}.

(** * Properties *)

(** Discharges the side conditions on widths at concrete types. *)
Ltac concrete_widths := unfold well_sized; simpl; lia.

(** ** Two's complement facts *)

Lemma pow2_double bits : 1 <= bits -> 2 ^ bits = 2 * 2 ^ (bits - 1).
Proof.
  intros H. replace bits with (Z.succ (bits - 1)) at 1 by lia.
  apply Z.pow_succ_r. lia.
Qed.

Lemma pow2_half_pos bits : 1 <= bits -> 0 < 2 ^ (bits - 1).
Proof. intros H. apply Z.pow_pos_nonneg; lia. Qed.

Lemma to_signed_in_range bits z : 1 <= bits -> in_range bits (to_signed bits z).
Proof.
  intros H. unfold in_range, to_signed, min_of, max_of.
  pose proof (pow2_double bits H) as Hd.
  pose proof (pow2_half_pos bits H) as Hp.
  pose proof (Z.mod_pos_bound z (2 ^ bits) ltac:(lia)) as Hm.
  cbv zeta. destruct (Z.ltb_spec (z mod 2 ^ bits) (2 ^ (bits - 1))); lia.
Qed.

Lemma to_signed_congruent bits z :
  1 <= bits -> to_signed bits z mod 2 ^ bits = z mod 2 ^ bits.
Proof.
  intros H. unfold to_signed. cbv zeta.
  pose proof (pow2_half_pos bits H) as Hp.
  pose proof (pow2_double bits H) as Hd.
  destruct (Z.ltb_spec (z mod 2 ^ bits) (2 ^ (bits - 1))).
  - apply Z.mod_mod. lia.
  - replace (z mod 2 ^ bits - 2 ^ bits) with (z mod 2 ^ bits + (-1) * 2 ^ bits) by lia.
    rewrite Z.mod_add by lia. apply Z.mod_mod. lia.
Qed.

Lemma to_signed_of_congruent bits y z :
  y mod 2 ^ bits = z mod 2 ^ bits -> to_signed bits y = to_signed bits z.
Proof. intros H. unfold to_signed. rewrite H. reflexivity. Qed.

Lemma to_signed_shift bits z k : 1 <= bits -> to_signed bits (z + k * 2 ^ bits) = to_signed bits z.
Proof.
  intros H. apply to_signed_of_congruent. apply Z.mod_add.
  pose proof (pow2_half_pos bits H). pose proof (pow2_double bits H). lia.
Qed.

Lemma to_signed_id bits z : 1 <= bits -> in_range bits z -> to_signed bits z = z.
Proof.
  intros H [Hlo Hhi]. unfold min_of, max_of in *.
  pose proof (pow2_half_pos bits H) as Hp.
  pose proof (pow2_double bits H) as Hd.
  destruct (Z.neg_nonneg_cases z) as [Hneg | Hpos].
  - replace z with ((z + 2 ^ bits) + (-1) * 2 ^ bits) at 1 by lia.
    rewrite to_signed_shift by assumption.
    unfold to_signed. cbv zeta. rewrite Z.mod_small by lia.
    destruct (Z.ltb_spec (z + 2 ^ bits) (2 ^ (bits - 1))); lia.
  - unfold to_signed. cbv zeta. rewrite Z.mod_small by lia.
    destruct (Z.ltb_spec z (2 ^ (bits - 1))); lia.
Qed.

Lemma in_range_congruent_eq bits v v' :
  1 <= bits -> in_range bits v -> in_range bits v' ->
  v mod 2 ^ bits = v' mod 2 ^ bits -> v = v'.
Proof.
  intros H Hv Hv' Heq.
  rewrite <- (to_signed_id bits v H Hv), <- (to_signed_id bits v' H Hv').
  apply to_signed_of_congruent, Heq.
Qed.

Lemma fits_in_range bits z : fits bits z = true <-> in_range bits z.
Proof. unfold fits, in_range. rewrite andb_true_iff, !Z.leb_le. reflexivity. Qed.

Lemma fits_false bits z : fits bits z = false <-> ~ in_range bits z.
Proof. rewrite <- fits_in_range. destruct (fits bits z); intuition congruence. Qed.

Lemma to_signed_exact_iff bits z :
  1 <= bits -> (to_signed bits z = z <-> in_range bits z).
Proof.
  intros H. split.
  - intros <-. apply to_signed_in_range, H.
  - apply to_signed_id, H.
Qed.

Lemma to_signed_cases bits z :
  1 <= bits -> - 2 ^ bits <= z < 2 ^ bits ->
  (in_range bits z /\ to_signed bits z = z)
  \/ (max_of bits < z /\ to_signed bits z = z - 2 ^ bits)
  \/ (z < min_of bits /\ to_signed bits z = z + 2 ^ bits).
Proof.
  intros H Hz.
  pose proof (pow2_half_pos bits H) as Hp.
  pose proof (pow2_double bits H) as Hd.
  destruct (Z_lt_le_dec (max_of bits) z) as [Hhi | Hhi];
    [| destruct (Z_lt_le_dec z (min_of bits)) as [Hlo | Hlo]].
  - right; left. split; [assumption |].
    replace z with ((z - 2 ^ bits) + 1 * 2 ^ bits) at 1 by lia.
    rewrite to_signed_shift by assumption.
    apply to_signed_id; [assumption |]. unfold in_range, min_of, max_of in *. lia.
  - right; right. split; [assumption |].
    replace z with ((z + 2 ^ bits) + (-1) * 2 ^ bits) at 1 by lia.
    rewrite to_signed_shift by assumption.
    apply to_signed_id; [assumption |]. unfold in_range, min_of, max_of in *. lia.
  - left. assert (in_range bits z) by (unfold in_range; lia).
    split; [assumption | apply to_signed_id; assumption].
Qed.

(** ** Arithmetic in the unsigned counterpart *)

Section Unsigned.

Variable B : build.
Variable bits : Z.
Hypothesis sized : well_sized B bits.

Local Lemma bits_pos : 1 <= bits.
Proof. destruct sized. lia. Qed.

(** Sums and differences of two values of [U] never leave the promoted
    type, so the arithmetic in [U] is defined and exact modulo [2^bits]. *)
Lemma unsigned_arith_small z :
  - 2 ^ bits <= z < 2 * 2 ^ bits ->
  exists r, unsigned_arith B bits z = Ret r /\ r mod 2 ^ bits = z mod 2 ^ bits.
Proof.
  intros Hz. unfold unsigned_arith. pose proof bits_pos as Hpos.
  destruct (Z.ltb_spec bits (int_bits B)) as [Hnarrow | Hwide].
  - assert (fits (int_bits B) z = true) as ->.
    { apply fits_in_range. unfold in_range, min_of, max_of.
      destruct sized as [_ Hgap]. specialize (Hgap Hnarrow).
      assert (2 * 2 ^ bits <= 2 ^ (int_bits B - 1)).
      { replace (2 * 2 ^ bits) with (2 ^ (bits + 1))
          by (rewrite Z.pow_add_r by lia; lia).
        apply Z.pow_le_mono_r; lia. }
      pose proof (pow2_half_pos bits bits_pos). pose proof (pow2_double bits bits_pos).
      lia. }
    exists z. split; reflexivity.
  - exists (z mod 2 ^ bits). split; [reflexivity |].
    apply Z.mod_mod. pose proof (pow2_half_pos bits bits_pos).
    pose proof (pow2_double bits bits_pos). lia.
Qed.

Lemma to_unsigned_bound z : 0 <= to_unsigned bits z < 2 ^ bits.
Proof.
  apply Z.mod_pos_bound. pose proof (pow2_half_pos bits bits_pos).
  pose proof (pow2_double bits bits_pos). lia.
Qed.

Lemma wrapping_add_eq a b : wrapping_add B bits a b = Ret (to_signed bits (a + b)).
Proof.
  unfold wrapping_add.
  pose proof (to_unsigned_bound a). pose proof (to_unsigned_bound b).
  destruct (unsigned_arith_small (to_unsigned bits a + to_unsigned bits b))
    as (r & -> & Hr); [lia |].
  cbn. f_equal. apply to_signed_of_congruent. rewrite Hr.
  unfold to_unsigned. symmetry. apply Zplus_mod.
Qed.

Lemma wrapping_sub_eq a b : wrapping_sub B bits a b = Ret (to_signed bits (a - b)).
Proof.
  unfold wrapping_sub.
  pose proof (to_unsigned_bound a). pose proof (to_unsigned_bound b).
  destruct (unsigned_arith_small (to_unsigned bits a - to_unsigned bits b))
    as (r & -> & Hr); [lia |].
  cbn. f_equal. apply to_signed_of_congruent. rewrite Hr.
  unfold to_unsigned. symmetry. apply Zminus_mod.
Qed.

End Unsigned.

Lemma to_signed_eqb_fits bits z : 1 <= bits -> (to_signed bits z =? z) = fits bits z.
Proof.
  intros H. apply eq_true_iff_eq.
  rewrite Z.eqb_eq, fits_in_range. apply to_signed_exact_iff, H.
Qed.

Lemma builtin_overflow_eq bits z :
  1 <= bits ->
  builtin_overflow bits z = {| value := to_signed bits z; overflowed := negb (fits bits z) |}.
Proof. intros H. unfold builtin_overflow. rewrite to_signed_eqb_fits by assumption. reflexivity. Qed.

(** ** Addition *)

Section Addition.

Variable B : build.
Variable bits : Z.
Hypothesis sized : well_sized B bits.

(** The sign analysis of the portable branch: the operands agree in sign
    and the wrapped sum does not. *)
Lemma add_sign_analysis a b :
  in_range bits a -> in_range bits b ->
  Bool.eqb (a <? 0) (b <? 0) && negb (Bool.eqb (a <? 0) (to_signed bits (a + b) <? 0))
  = negb (fits bits (a + b)).
Proof.
  intros Ha Hb. pose proof (bits_pos B bits sized) as Hpos.
  pose proof (pow2_half_pos bits Hpos) as Hp.
  pose proof (pow2_double bits Hpos) as Hd.
  unfold in_range, min_of, max_of in Ha, Hb.
  destruct (to_signed_cases bits (a + b) Hpos ltac:(lia)) as [[Hin ->] | [[Hhi ->] | [Hlo ->]]].
  - apply fits_in_range in Hin as ->.
    unfold in_range, min_of, max_of in *.
    destruct (Z.ltb_spec a 0), (Z.ltb_spec b 0), (Z.ltb_spec (a + b) 0); cbn; lia || reflexivity.
  - assert (fits bits (a + b) = false) as ->
      by (apply fits_false; unfold in_range; lia).
    unfold max_of in Hhi.
    destruct (Z.ltb_spec a 0), (Z.ltb_spec b 0), (Z.ltb_spec (a + b - 2 ^ bits) 0);
      cbn; lia || reflexivity.
  - assert (fits bits (a + b) = false) as ->
      by (apply fits_false; unfold in_range; lia).
    unfold min_of in Hlo.
    destruct (Z.ltb_spec a 0), (Z.ltb_spec b 0), (Z.ltb_spec (a + b + 2 ^ bits) 0);
      cbn; lia || reflexivity.
Qed.

(** Both branches of [overflowing_add] return the wrapped sum and tell
    whether the exact sum is representable. *)
Lemma overflowing_add_eq a b :
  in_range bits a -> in_range bits b ->
  overflowing_add B bits a b
  = Ret {| value := to_signed bits (a + b); overflowed := negb (fits bits (a + b)) |}.
Proof.
  intros Ha Hb. unfold overflowing_add.
  destruct (use_builtin_overflow_ops B).
  - rewrite builtin_overflow_eq by exact (bits_pos B bits sized). reflexivity.
  - rewrite (wrapping_add_eq B bits sized). cbn.
    rewrite add_sign_analysis by assumption. reflexivity.
Qed.

End Addition.

Lemma max_of_in_range bits : 1 <= bits -> in_range bits (max_of bits).
Proof.
  intros H. pose proof (pow2_half_pos bits H). unfold in_range, min_of, max_of. lia.
Qed.

Lemma min_of_in_range bits : 1 <= bits -> in_range bits (min_of bits).
Proof.
  intros H. pose proof (pow2_half_pos bits H). unfold in_range, min_of, max_of. lia.
Qed.

Lemma small_in_range bits z : 2 <= bits -> -2 <= z <= 1 -> in_range bits z.
Proof.
  intros H Hz. unfold in_range, min_of, max_of.
  assert (2 ^ 1 <= 2 ^ (bits - 1)) by (apply Z.pow_le_mono_r; lia).
  change (2 ^ 1) with 2 in *. lia.
Qed.

(** C4. For every signed integral type [T] and all [a], [b], [wrapping_add]
    returns (it neither fails nor is undefined) the one value of [T] that is
    congruent to [a + b] modulo [2^bits]. *)
Theorem wrapping_add_modular (B : build) (bits a b : Z) :
  well_sized B bits ->
  exists v,
    wrapping_add B bits a b = Ret v
    /\ in_range bits v
    /\ v mod 2 ^ bits = (a + b) mod 2 ^ bits
    /\ forall v', in_range bits v' -> v' mod 2 ^ bits = (a + b) mod 2 ^ bits -> v' = v.
Proof.
  intros sized. pose proof (bits_pos B bits sized) as Hpos.
  exists (to_signed bits (a + b)). repeat split.
  - apply wrapping_add_eq, sized.
  - apply to_signed_in_range, Hpos.
  - apply to_signed_in_range, Hpos.
  - apply to_signed_congruent, Hpos.
  - intros v' Hv' Hcong.
    apply (in_range_congruent_eq bits); try assumption.
    + apply to_signed_in_range, Hpos.
    + rewrite Hcong. symmetry. apply to_signed_congruent, Hpos.
Qed.

Lemma wrapping_add_modular_witness :
  well_sized portable_strict 8
  /\ exists v,
      wrapping_add portable_strict 8 100 100 = Ret v
      /\ in_range 8 v
      /\ v mod 2 ^ 8 = (100 + 100) mod 2 ^ 8
      /\ forall v', in_range 8 v' -> v' mod 2 ^ 8 = (100 + 100) mod 2 ^ 8 -> v' = v.
Proof.
  split.
  - concrete_widths.
  - apply (wrapping_add_modular portable_strict 8 100 100). concrete_widths.
Defined.

(** C1. For every signed integral type [T] and all [a], [b] of [T],
    [overflowing_add] returns a result whose flag is set exactly when the
    exact sum [a + b] is outside [[min(T), max(T)]], and whose value is what
    [wrapping_add] returns; this holds for every build, with the overflow
    builtins and with the portable sign analysis. *)
Theorem overflowing_add_correct (B : build) (bits a b : Z) :
  well_sized B bits -> in_range bits a -> in_range bits b ->
  exists res,
    overflowing_add B bits a b = Ret res
    /\ (overflowed res = true <-> ~ in_range bits (a + b))
    /\ wrapping_add B bits a b = Ret (value res).
Proof.
  intros sized Ha Hb.
  exists {| value := to_signed bits (a + b); overflowed := negb (fits bits (a + b)) |}.
  split; [| split].
  - apply overflowing_add_eq; assumption.
  - cbn. rewrite negb_true_iff. apply fits_false.
  - cbn. apply wrapping_add_eq, sized.
Qed.

Lemma overflowing_add_correct_witness :
  exists res,
    overflowing_add portable_strict 32 2147483647 1 = Ret res
    /\ (overflowed res = true <-> ~ in_range 32 (2147483647 + 1))
    /\ wrapping_add portable_strict 32 2147483647 1 = Ret (value res).
Proof.
  apply (overflowing_add_correct portable_strict 32 2147483647 1).
  - concrete_widths.
  - unfold in_range, min_of, max_of; simpl; lia.
  - unfold in_range, min_of, max_of; simpl; lia.
Defined.

(** C5. Under the [fail] overflow policy, at run time and for every signed
    integral type, [checked_add(max, 1)] reports the failure "signed
    overflow in addition", and [checked_add(min, max)] returns [-1]. *)
Theorem checked_add_fail_extremes (B : build) (bits : Z) :
  well_sized B bits -> on_overflow B = overflow_policy.fail ->
  checked_add B bits false (max_of bits) 1 = Fail "signed overflow in addition"
  /\ checked_add B bits false (min_of bits) (max_of bits) = Ret (-1).
Proof.
  intros sized Hpol. pose proof (bits_pos B bits sized) as Hpos.
  assert (2 <= bits) as H2 by (destruct sized; assumption).
  pose proof (pow2_half_pos bits Hpos) as Hp.
  unfold checked_add. rewrite Hpol. split.
  - rewrite (overflowing_add_eq B bits sized)
      by (apply max_of_in_range || apply small_in_range; lia).
    assert (fits bits (max_of bits + 1) = false) as ->
      by (apply fits_false; unfold in_range, max_of; lia).
    reflexivity.
  - rewrite (overflowing_add_eq B bits sized)
      by (apply max_of_in_range || apply min_of_in_range; lia).
    replace (min_of bits + max_of bits) with (-1) by (unfold min_of, max_of; lia).
    assert (in_range bits (-1)) as Hm by (apply small_in_range; lia).
    rewrite (proj2 (fits_in_range bits (-1)) Hm), to_signed_id by assumption.
    reflexivity.
Qed.

Lemma checked_add_fail_extremes_witness :
  checked_add builtin_strict 8 false (max_of 8) 1 = Fail "signed overflow in addition"
  /\ checked_add builtin_strict 8 false (min_of 8) (max_of 8) = Ret (-1).
Proof.
  apply (checked_add_fail_extremes builtin_strict 8).
  - concrete_widths.
  - reflexivity.
Defined.

(** C6. Under the [wrap] overflow policy, at run time, [checked_add] is
    [wrapping_add] for every signed integral type and all operands, and it
    returns a value: no failure is reported and nothing is undefined. *)
Theorem checked_add_wrap (B : build) (bits a b : Z) :
  well_sized B bits -> on_overflow B = overflow_policy.wrap ->
  checked_add B bits false a b = wrapping_add B bits a b
  /\ exists v, checked_add B bits false a b = Ret v.
Proof.
  intros sized Hpol. unfold checked_add. rewrite Hpol. split; [reflexivity |].
  exists (to_signed bits (a + b)). apply wrapping_add_eq, sized.
Qed.

Lemma checked_add_wrap_witness :
  checked_add portable_wrap 16 false 32767 1 = wrapping_add portable_wrap 16 32767 1
  /\ exists v, checked_add portable_wrap 16 false 32767 1 = Ret v.
Proof.
  apply (checked_add_wrap portable_wrap 16 32767 1).
  - concrete_widths.
  - reflexivity.
Defined.

(** C9. Under the [fail] overflow policy, whenever [overflowing_add] returns
    a result whose flag is not set, [checked_add] at run time returns the
    value of that result and reports no failure. *)
Theorem checked_add_round_trip (B : build) (bits a b : Z) (res : overflow_result) :
  on_overflow B = overflow_policy.fail ->
  overflowing_add B bits a b = Ret res ->
  overflowed res = false ->
  checked_add B bits false a b = Ret (value res).
Proof.
  intros Hpol Hres Hflag. unfold checked_add.
  rewrite Hpol, Hres. cbn. rewrite Hflag. reflexivity.
Qed.

Lemma checked_add_round_trip_witness :
  checked_add portable_strict 32 false (-5) 7 = Ret 2.
Proof.
  apply (checked_add_round_trip portable_strict 32 (-5) 7
           {| value := 2; overflowed := false |}); reflexivity.
Defined.

(** ** Division and remainder *)

Lemma return_as_T_not_fail bits (e : outcome Z) msg :
  (forall m, e <> Fail m) -> return_as_T bits e <> Fail msg.
Proof.
  intros He. destruct e as [r | m |]; cbn; try discriminate.
  intros _. apply (He m). reflexivity.
Qed.

Lemma signed_arith_not_fail B bits z msg : signed_arith B bits z <> Fail msg.
Proof. unfold signed_arith. destruct (fits _ z); discriminate. Qed.

Lemma native_div_not_fail B bits a b msg : native_div B bits a b <> Fail msg.
Proof.
  unfold native_div. destruct (b =? 0); [discriminate | apply signed_arith_not_fail].
Qed.

Lemma native_mod_not_fail B bits a b msg : native_mod B bits a b <> Fail msg.
Proof.
  unfold native_mod, signed_arith.
  destruct (b =? 0); [discriminate |]. destruct (fits _ _); discriminate.
Qed.

(** The guard [if (rhs == 0) runtime_error("divide by zero", loc);] in front
    of an expression that reports no failure of its own. *)
Lemma zero_guard_fail_iff bits (e : outcome Z) (b : Z) msg :
  (forall m, e <> Fail m) ->
  (_ <- (if b =? 0 then runtime_error "divide by zero" else Ret tt) ;; return_as_T bits e)
  = Fail msg
  <-> b = 0 /\ msg = "divide by zero".
Proof.
  intros He. destruct (Z.eqb_spec b 0) as [-> | Hb]; cbn.
  - split.
    + intros [= <-]. split; reflexivity.
    + intros [_ ->]. reflexivity.
  - split.
    + intros H. exfalso. revert H. apply return_as_T_not_fail, He.
    + intros [Hz _]. contradiction.
Qed.

(** C3. Under the [fail] divide-by-zero policy, at run time, [checked_div]
    and [checked_mod] report a failure exactly when the divisor is zero, and
    the message is then "divide by zero"; the division of [min(T)] by [-1]
    has no guard of its own and reports no failure. *)
Theorem checked_div_mod_fail_iff_zero (B : build) (bits a b : Z) :
  on_divide_by_zero B = divide_by_zero_policy.fail ->
  (forall msg, checked_div B bits false a b = Fail msg <-> b = 0 /\ msg = "divide by zero")
  /\ (forall msg, checked_mod B bits false a b = Fail msg <-> b = 0 /\ msg = "divide by zero")
  /\ (forall msg, checked_div B bits false (min_of bits) (-1) <> Fail msg)
  /\ (forall msg, checked_mod B bits false (min_of bits) (-1) <> Fail msg).
Proof.
  intros Hpol. unfold checked_div, checked_mod. rewrite Hpol.
  split; [| split; [| split]]; intros msg.
  - apply zero_guard_fail_iff. intros m. apply native_div_not_fail.
  - apply zero_guard_fail_iff. intros m. apply native_mod_not_fail.
  - intros H. apply zero_guard_fail_iff in H as [H _]; [discriminate H |].
    intros m. apply native_div_not_fail.
  - intros H. apply zero_guard_fail_iff in H as [H _]; [discriminate H |].
    intros m. apply native_mod_not_fail.
Qed.

Lemma checked_div_mod_fail_iff_zero_witness :
  (forall msg, checked_div portable_strict 32 false 7 0 = Fail msg
               <-> 0 = 0 /\ msg = "divide by zero")
  /\ (forall msg, checked_mod portable_strict 32 false 7 0 = Fail msg
                  <-> 0 = 0 /\ msg = "divide by zero")
  /\ (forall msg, checked_div portable_strict 32 false (min_of 32) (-1) <> Fail msg)
  /\ (forall msg, checked_mod portable_strict 32 false (min_of 32) (-1) <> Fail msg).
Proof.
  apply (checked_div_mod_fail_iff_zero portable_strict 32 7 0). reflexivity.
Defined.

(** What the unguarded division does instead: in [int] and wider types the
    quotient of [min(T)] by [-1] is not representable and the division is
    undefined; in a narrower type it is computed in [int] and the result
    wraps back to [min(T)]. *)
Example checked_div_min_by_minus_one_int :
  checked_div portable_strict 32 false (min_of 32) (-1) = Undefined
  /\ checked_mod portable_strict 32 false (min_of 32) (-1) = Undefined.
Proof. split; reflexivity. Qed.

Example checked_div_min_by_minus_one_char :
  checked_div portable_strict 8 false (min_of 8) (-1) = Ret (min_of 8)
  /\ checked_mod portable_strict 8 false (min_of 8) (-1) = Ret 0.
Proof. split; reflexivity. Qed.

(** ** Powers *)

Lemma bind_ret_r {A : Type} (c : outcome A) : (x <- c ;; Ret x) = c.
Proof. destruct c; reflexivity. Qed.

Lemma bind_assoc {A B C : Type} (c : outcome A) (f : A -> outcome B) (g : B -> outcome C) :
  (y <- (x <- c ;; f x) ;; g y) = (x <- c ;; y <- f x ;; g y).
Proof. destruct c; reflexivity. Qed.

Lemma returns_false_not_ret {A : Type} (o : outcome A) (a : A) :
  returns o = false -> o <> Ret a.
Proof. intros H ->. discriminate H. Qed.

Section Powers.

Variable B : build.
Variable bits : Z.
Variable constant_evaluated : bool.
Variable base : Z.

(** The loop, entered with any outcome so far, multiplies [todo] more times. *)
Lemma pow_loop_iter (todo : nat) (c : outcome Z) :
  (res <- c ;; pow_loop B bits constant_evaluated base todo res)
  = Nat.iter todo
      (fun acc => r <- acc ;; checked_mul B bits constant_evaluated r base) c.
Proof.
  revert c. induction todo as [| todo IH]; intros c.
  - cbn. apply bind_ret_r.
  - rewrite Nat.iter_succ_r. rewrite <- IH. cbn [pow_loop].
    symmetry. apply bind_assoc.
Qed.

Lemma pow_loop_iterated (n : nat) :
  pow_loop B bits constant_evaluated base n 1
  = iterated_checked_mul B bits constant_evaluated base n.
Proof. unfold iterated_checked_mul. rewrite <- pow_loop_iter. reflexivity. Qed.

(** The loop run for one more round is the loop followed by one
    multiplication. *)
Lemma pow_loop_succ (n : nat) :
  pow_loop B bits constant_evaluated base (S n) 1
  = (r <- pow_loop B bits constant_evaluated base n 1 ;;
     checked_mul B bits constant_evaluated r base).
Proof. rewrite !pow_loop_iterated. reflexivity. Qed.

(** The loop ends without a value exactly when one of its multiplications
    does, the ones before it having returned. *)
Lemma pow_loop_stops (n : nat) (o : outcome Z) :
  returns o = false ->
  pow_loop B bits constant_evaluated base n 1 = o
  <-> exists (k : nat) (r : Z),
        (k < n)%nat
        /\ pow_loop B bits constant_evaluated base k 1 = Ret r
        /\ checked_mul B bits constant_evaluated r base = o.
Proof.
  intros Ho. induction n as [| n IH].
  - split.
    + cbn. intros <-. discriminate Ho.
    + intros (k & r & Hk & _). lia.
  - rewrite pow_loop_succ.
    destruct (pow_loop B bits constant_evaluated base n 1) as [r | m |] eqn:Hn; cbn.
    + split.
      * intros Hmul. exists n, r. repeat split; [lia | assumption..].
      * intros (k & r' & Hk & Hprefix & Hmul).
        destruct (Nat.eq_dec k n) as [-> | Hne].
        -- rewrite Hn in Hprefix. injection Hprefix as <-. exact Hmul.
        -- exfalso. apply (returns_false_not_ret o r Ho).
           symmetry. apply IH. exists k, r'. repeat split; [lia | assumption..].
    + split.
      * intros <-. destruct (proj1 IH eq_refl) as (k & r & Hk & Hrest).
        exists k, r. split; [lia | exact Hrest].
      * intros (k & r' & Hk & Hprefix & Hmul).
        destruct (Nat.eq_dec k n) as [-> | Hne].
        -- rewrite Hn in Hprefix. discriminate Hprefix.
        -- apply IH. exists k, r'. repeat split; [lia | assumption..].
    + split.
      * intros <-. destruct (proj1 IH eq_refl) as (k & r & Hk & Hrest).
        exists k, r. split; [lia | exact Hrest].
      * intros (k & r' & Hk & Hprefix & Hmul).
        destruct (Nat.eq_dec k n) as [-> | Hne].
        -- rewrite Hn in Hprefix. discriminate Hprefix.
        -- apply IH. exists k, r'. repeat split; [lia | assumption..].
Qed.

End Powers.

(** C7. For every base of a signed integral type and every unsigned
    exponent, [checked_pow] is [checked_mul] applied [exponent] times
    starting from [T{1}]; with exponent [0] it returns [T{1}] whatever the
    base, zero included; and it ends in a failure (or in undefined
    arithmetic) exactly when one of the multiplications of the loop does,
    under the policy of the build. *)
Theorem checked_pow_iterated (B : build) (bits : Z) (constant_evaluated : bool) (base : Z) :
  (forall exponent : N,
      checked_pow B bits constant_evaluated base exponent
      = iterated_checked_mul B bits constant_evaluated base (N.to_nat exponent))
  /\ checked_pow B bits constant_evaluated base 0 = Ret 1
  /\ checked_pow B bits constant_evaluated 0 0 = Ret 1
  /\ (forall (exponent : N) (o : outcome Z),
         returns o = false ->
         checked_pow B bits constant_evaluated base exponent = o
         <-> exists (k : N) (r : Z),
               (k < exponent)%N
               /\ checked_pow B bits constant_evaluated base k = Ret r
               /\ checked_mul B bits constant_evaluated r base = o).
Proof.
  split; [| split; [| split]].
  - intros exponent. apply pow_loop_iterated.
  - reflexivity.
  - reflexivity.
  - intros exponent o Ho. unfold checked_pow.
    rewrite (pow_loop_stops B bits constant_evaluated base (N.to_nat exponent) o Ho).
    split.
    + intros (k & r & Hk & Hrest). exists (N.of_nat k), r.
      rewrite Nat2N.id. split; [lia | exact Hrest].
    + intros (k & r & Hk & Hrest). exists (N.to_nat k), r.
      split; [lia | exact Hrest].
Qed.

Example checked_pow_two_cubed :
  checked_pow portable_strict 8 false 2 3 = Ret 8.
Proof. reflexivity. Qed.

Example checked_pow_two_seventh_char :
  checked_pow portable_strict 8 false 2 7 = Fail "signed overflow in multiplication"
  /\ checked_pow portable_strict 8 false 2 6 = Ret 64
  /\ checked_mul portable_strict 8 false 64 2 = Fail "signed overflow in multiplication".
Proof. repeat split; reflexivity. Qed.

(** ** Subtraction *)

Section Subtraction.

Variable B : build.
Variable bits : Z.
Hypothesis sized : well_sized B bits.

(** The sign analysis of the portable branch: the operands differ in sign
    and the wrapped difference has the sign of the right operand. *)
Lemma sub_sign_analysis a b :
  in_range bits a -> in_range bits b ->
  (0 <=? a) && (b <? 0) && (to_signed bits (a - b) <? 0)
  || (a <? 0) && (0 <? b) && (0 <? to_signed bits (a - b))
  = negb (fits bits (a - b)).
Proof.
  intros Ha Hb. pose proof (bits_pos B bits sized) as Hpos.
  pose proof (pow2_half_pos bits Hpos) as Hp.
  pose proof (pow2_double bits Hpos) as Hd.
  unfold in_range, min_of, max_of in Ha, Hb.
  destruct (to_signed_cases bits (a - b) Hpos ltac:(lia)) as [[Hin ->] | [[Hhi ->] | [Hlo ->]]].
  - apply fits_in_range in Hin as ->.
    unfold in_range, min_of, max_of in *.
    destruct (Z.leb_spec 0 a), (Z.ltb_spec b 0), (Z.ltb_spec (a - b) 0),
      (Z.ltb_spec a 0), (Z.ltb_spec 0 b), (Z.ltb_spec 0 (a - b)); cbn; lia || reflexivity.
  - assert (fits bits (a - b) = false) as ->
      by (apply fits_false; unfold in_range; lia).
    unfold max_of in Hhi.
    destruct (Z.leb_spec 0 a), (Z.ltb_spec b 0), (Z.ltb_spec (a - b - 2 ^ bits) 0),
      (Z.ltb_spec a 0), (Z.ltb_spec 0 b), (Z.ltb_spec 0 (a - b - 2 ^ bits));
      cbn; lia || reflexivity.
  - assert (fits bits (a - b) = false) as ->
      by (apply fits_false; unfold in_range; lia).
    unfold min_of in Hlo.
    destruct (Z.leb_spec 0 a), (Z.ltb_spec b 0), (Z.ltb_spec (a - b + 2 ^ bits) 0),
      (Z.ltb_spec a 0), (Z.ltb_spec 0 b), (Z.ltb_spec 0 (a - b + 2 ^ bits));
      cbn; lia || reflexivity.
Qed.

Lemma overflowing_sub_eq a b :
  in_range bits a -> in_range bits b ->
  overflowing_sub B bits a b
  = Ret {| value := to_signed bits (a - b); overflowed := negb (fits bits (a - b)) |}.
Proof.
  intros Ha Hb. unfold overflowing_sub.
  destruct (use_builtin_overflow_ops B).
  - rewrite builtin_overflow_eq by exact (bits_pos B bits sized). reflexivity.
  - rewrite (wrapping_sub_eq B bits sized). cbn.
    rewrite sub_sign_analysis by assumption. reflexivity.
Qed.

(** [max - min] is [2^bits - 1], which no signed type of that width holds. *)
Lemma checked_sub_max_min :
  on_overflow B = overflow_policy.fail ->
  checked_sub B bits false (max_of bits) (min_of bits)
  = Fail "signed overflow in subtraction".
Proof.
  intros Hpol. pose proof (bits_pos B bits sized) as Hpos.
  pose proof (pow2_half_pos bits Hpos) as Hp.
  unfold checked_sub. rewrite Hpol.
  rewrite overflowing_sub_eq by (apply max_of_in_range || apply min_of_in_range; lia).
  assert (fits bits (max_of bits - min_of bits) = false) as ->
    by (apply fits_false; unfold in_range, min_of, max_of; lia).
  reflexivity.
Qed.

End Subtraction.

(** C8, as stated, at [unsigned char]: the call [checked_sub(max, min)] does
    not return [max], because [checked_sub] has no instance at an unsigned
    type. *)
Lemma checked_sub_unsigned_counterexample :
  let unsigned_char := {| is_signed := false; width := 8 |} in
  checked_sub_at portable_strict unsigned_char false
    (numeric_max unsigned_char) (numeric_min unsigned_char)
  <> Some (Ret (numeric_max unsigned_char)).
Proof. cbn. discriminate. Qed.

(** C8, amended. Under the [fail] overflow policy, at run time,
    [checked_sub(max, min)] reports the failure "signed overflow in
    subtraction" for every signed integral type; for an unsigned integral
    type the constraint [std::signed_integral] is not met and [checked_sub]
    cannot be called at all. *)
Theorem checked_sub_max_min_signed_only (B : build) (T : integral) :
  well_sized B (width T) -> on_overflow B = overflow_policy.fail ->
  (signed_integral T = true ->
   checked_sub_at B T false (numeric_max T) (numeric_min T)
   = Some (Fail "signed overflow in subtraction"))
  /\ (signed_integral T = false ->
      forall lhs rhs, checked_sub_at B T false lhs rhs = None).
Proof.
  intros sized Hpol. unfold checked_sub_at, numeric_max, numeric_min, signed_integral.
  split; intros HT; rewrite HT.
  - f_equal. apply checked_sub_max_min; assumption.
  - reflexivity.
Qed.

Lemma checked_sub_max_min_signed_only_witness :
  checked_sub_at portable_strict {| is_signed := true; width := 16 |} false 32767 (-32768)
  = Some (Fail "signed overflow in subtraction").
Proof.
  apply (checked_sub_max_min_signed_only portable_strict {| is_signed := true; width := 16 |}).
  - concrete_widths.
  - reflexivity.
  - reflexivity.
Defined.

(** ** Multiplication *)

Lemma to_signed_offset bits z :
  1 <= bits -> exists k, to_signed bits z = z + k * 2 ^ bits.
Proof.
  intros H. pose proof (pow2_half_pos bits H) as Hp.
  pose proof (pow2_double bits H) as Hd.
  unfold to_signed. cbv zeta. rewrite Zmod_eq_full by lia.
  destruct (_ <? _).
  - exists (- (z / 2 ^ bits)). lia.
  - exists (- (z / 2 ^ bits) - 1). lia.
Qed.

Lemma quot_abs_mul_le a b : b <> 0 -> Z.abs b * Z.abs (a ÷ b) <= Z.abs a.
Proof.
  intros Hb. rewrite <- Z.quot_abs by assumption.
  rewrite Z.quot_div_nonneg by lia.
  apply Z.mul_div_le. lia.
Qed.

(** The truncated quotient of a value of [T] by a non-zero value of [T] is
    a value of [T], but for [min / -1]. *)
Lemma quot_in_range bits v a :
  1 <= bits -> in_range bits v -> a <> 0 -> ~ (v = min_of bits /\ a = -1) ->
  in_range bits (v ÷ a).
Proof.
  unfold in_range, min_of, max_of. intros H Hv Ha Hex.
  pose proof (pow2_half_pos bits H) as Hp.
  pose proof (quot_abs_mul_le v a Ha) as Hle.
  destruct (Z.eq_dec a (-1)) as [-> | Hm1].
  - change (-1) with (- (1)). rewrite Z.quot_opp_r by lia. rewrite Z.quot_1_r. lia.
  - destruct (Z.eq_dec a 1) as [-> | H1].
    + rewrite Z.quot_1_r. lia.
    + assert (2 <= Z.abs a) by lia. nia.
Qed.

(** The check of the portable branch, on exact integers: dividing the
    wrapped product by the left operand gives back the right operand exactly
    when the product did not wrap. *)
Lemma mul_division_check bits a b :
  1 <= bits -> in_range bits a -> a <> 0 ->
  (to_signed bits (a * b) ÷ a =? b) = fits bits (a * b).
Proof.
  intros H Ha Hnz. apply eq_true_iff_eq. rewrite Z.eqb_eq, fits_in_range. split.
  - intros Hq.
    destruct (to_signed_offset bits (a * b) H) as [k Hk].
    pose proof (to_signed_in_range bits (a * b) H) as Hv.
    pose proof (Z.quot_rem' (to_signed bits (a * b)) a) as Hqr.
    pose proof (Z.rem_bound_abs (to_signed bits (a * b)) a Hnz) as Hr.
    rewrite Hq in Hqr.
    pose proof (pow2_half_pos bits H) as Hp.
    pose proof (pow2_double bits H) as Hd.
    unfold in_range, min_of, max_of in Ha.
    assert (k = 0) as -> by nia.
    replace (a * b) with (to_signed bits (a * b)) by lia. exact Hv.
  - intros Hin. rewrite to_signed_id by assumption.
    rewrite Z.mul_comm. apply Z.quot_mul, Hnz.
Qed.

Lemma to_signed_mul_unsigned bits a b :
  to_signed bits (to_unsigned bits a * to_unsigned bits b) = to_signed bits (a * b).
Proof.
  apply to_signed_of_congruent. unfold to_unsigned. symmetry. apply Zmult_mod.
Qed.

(** Only [min(T)] negates, with wrap-around, to [min(T)]. *)
Lemma to_signed_neg_min bits b :
  1 <= bits -> in_range bits b -> to_signed bits (-1 * b) = min_of bits -> b = min_of bits.
Proof.
  intros H Hb Hmin. pose proof (pow2_half_pos bits H) as Hp.
  pose proof (pow2_double bits H) as Hd.
  unfold in_range, min_of, max_of in *.
  destruct (to_signed_cases bits (-1 * b) H ltac:(lia)) as [[Hin Hv] | [[Hhi Hv] | [Hlo Hv]]];
    unfold in_range, min_of, max_of in *; lia.
Qed.

Section Multiplication.

Variable B : build.
Variable bits : Z.
Hypothesis sized : well_sized B bits.

(** With the overflow builtins the result is right for all operands. *)
Lemma overflowing_mul_builtin_eq a b :
  use_builtin_overflow_ops B = true ->
  overflowing_mul B bits a b
  = Ret {| value := to_signed bits (a * b); overflowed := negb (fits bits (a * b)) |}.
Proof.
  intros Hb. unfold overflowing_mul. rewrite Hb.
  rewrite builtin_overflow_eq by exact (bits_pos B bits sized). reflexivity.
Qed.

(** In [int] and wider types the product in [U] is taken modulo [2^bits]. *)
Lemma wrapping_mul_wide a b :
  int_bits B <= bits -> wrapping_mul B bits a b = Ret (to_signed bits (a * b)).
Proof.
  intros Hwide. unfold wrapping_mul, unsigned_arith.
  destruct (Z.ltb_spec bits (int_bits B)); [lia |]. cbn. f_equal.
  rewrite <- to_signed_mul_unsigned. apply to_signed_of_congruent.
  apply Z.mod_mod. pose proof (bits_pos B bits sized) as Hpos.
  pose proof (pow2_half_pos bits Hpos). pose proof (pow2_double bits Hpos). lia.
Qed.

(** In a type of less than half the width of [int] the product in [U] is
    taken in [int], where it fits. *)
Lemma wrapping_mul_narrow a b :
  2 * bits < int_bits B -> wrapping_mul B bits a b = Ret (to_signed bits (a * b)).
Proof.
  intros Hnarrow. pose proof (bits_pos B bits sized) as Hpos.
  unfold wrapping_mul, unsigned_arith.
  destruct (Z.ltb_spec bits (int_bits B)); [| lia].
  assert (fits (int_bits B) (to_unsigned bits a * to_unsigned bits b) = true) as ->.
  { apply fits_in_range. unfold in_range, min_of, max_of.
    pose proof (to_unsigned_bound B bits sized a).
    pose proof (to_unsigned_bound B bits sized b).
    assert (2 ^ bits * 2 ^ bits <= 2 ^ (int_bits B - 1)).
    { rewrite <- Z.pow_add_r by lia. apply Z.pow_le_mono_r; lia. }
    nia. }
  cbn. f_equal. apply to_signed_mul_unsigned.
Qed.

Lemma promoted_in_range z : in_range bits z -> in_range (promoted_bits B bits) z.
Proof.
  pose proof (bits_pos B bits sized) as Hpos.
  unfold in_range, min_of, max_of, promoted_bits. intros Hz.
  assert (2 ^ (bits - 1) <= 2 ^ (Z.max bits (int_bits B) - 1))
    by (apply Z.pow_le_mono_r; lia).
  lia.
Qed.

(** Where the portable branch is right: in [int] and wider types for all
    operands but [-1] and [min(T)] in this order, and in types of less than
    half the width of [int] for all operands. *)
Lemma overflowing_mul_portable_eq a b :
  use_builtin_overflow_ops B = false ->
  in_range bits a -> in_range bits b ->
  (int_bits B <= bits /\ ~ (a = -1 /\ b = min_of bits)) \/ 2 * bits < int_bits B ->
  overflowing_mul B bits a b
  = Ret {| value := to_signed bits (a * b); overflowed := negb (fits bits (a * b)) |}.
Proof.
  intros Hb Ha Hrb Hcase. pose proof (bits_pos B bits sized) as Hpos.
  unfold overflowing_mul. rewrite Hb.
  assert (wrapping_mul B bits a b = Ret (to_signed bits (a * b))) as ->
    by (destruct Hcase as [[Hwide _] | Hnarrow];
        [apply wrapping_mul_wide | apply wrapping_mul_narrow]; assumption).
  cbn. destruct (Z.eqb_spec a 0) as [-> | Hnz]; cbn.
  - assert (fits bits 0 = true) as ->; [| reflexivity].
    apply fits_in_range. pose proof (pow2_half_pos bits Hpos).
    unfold in_range, min_of, max_of. lia.
  - unfold native_div. destruct (Z.eqb_spec a 0) as [| _]; [contradiction |].
    unfold signed_arith.
    assert (fits (promoted_bits B bits) (to_signed bits (a * b) ÷ a) = true) as ->.
    { apply fits_in_range.
      pose proof (to_signed_in_range bits (a * b) Hpos) as Hv.
      destruct Hcase as [[Hwide Hex] | Hnarrow].
      - apply promoted_in_range, quot_in_range; try assumption.
        intros [Hmin ->]. apply Hex. split; [reflexivity |].
        apply to_signed_neg_min; assumption.
      - pose proof (quot_abs_mul_le (to_signed bits (a * b)) a Hnz) as Hle.
        pose proof (pow2_half_pos bits Hpos).
        unfold in_range, min_of, max_of, promoted_bits in *.
        assert (2 * 2 ^ (bits - 1) <= 2 ^ (Z.max bits (int_bits B) - 1)).
        { rewrite <- (pow2_double bits Hpos). apply Z.pow_le_mono_r; lia. }
        nia. }
    cbn. rewrite mul_division_check by assumption. reflexivity.
Qed.

End Multiplication.

(** *** The operands [-1] and [min(T)] *)

Section MinByMinusOne.

Variable B : build.
Variable bits : Z.
Hypothesis sized : well_sized B bits.
Hypothesis wide : int_bits B <= bits.

Lemma wrapping_mul_minus_one_min :
  wrapping_mul B bits (-1) (min_of bits) = Ret (min_of bits).
Proof.
  pose proof (bits_pos B bits sized) as Hpos.
  rewrite (wrapping_mul_wide B bits sized) by exact wide. f_equal.
  replace (-1 * min_of bits) with (min_of bits + 1 * 2 ^ bits)
    by (unfold min_of; pose proof (pow2_double bits Hpos); lia).
  rewrite to_signed_shift by assumption.
  apply to_signed_id, min_of_in_range; assumption.
Qed.

Lemma native_div_min_minus_one :
  native_div B bits (min_of bits) (-1) = Undefined.
Proof.
  pose proof (bits_pos B bits sized) as Hpos.
  pose proof (pow2_half_pos bits Hpos) as Hp.
  unfold native_div, signed_arith. cbn [Z.eqb].
  assert (fits (promoted_bits B bits) (min_of bits ÷ -1) = false) as ->;
    [| reflexivity].
  apply fits_false. unfold promoted_bits. rewrite Z.max_l by exact wide.
  change (-1) with (- (1)). rewrite Z.quot_opp_r, Z.quot_1_r by lia.
  unfold in_range, min_of, max_of. lia.
Qed.

Lemma minus_one_times_min_out_of_range :
  ~ in_range bits (-1 * min_of bits).
Proof.
  pose proof (bits_pos B bits sized) as Hpos.
  pose proof (pow2_half_pos bits Hpos) as Hp.
  unfold in_range, min_of, max_of. lia.
Qed.

End MinByMinusOne.

(** C2, at the operands where the code departs from it. In [int] and every
    wider type, [-1] times [min(T)] is not representable, so the flag is due;
    the portable branch of [overflowing_mul] divides the wrapped product
    [min(T)] by [-1], which is undefined, and returns no flag at all, while
    the branch with the builtins returns the wrapped product with the flag
    set. *)
Theorem overflowing_mul_portable_min_by_minus_one (B : build) (bits : Z) :
  well_sized B bits -> int_bits B <= bits ->
  in_range bits (-1) /\ in_range bits (min_of bits)
  /\ ~ in_range bits (-1 * min_of bits)
  /\ (use_builtin_overflow_ops B = false ->
      overflowing_mul B bits (-1) (min_of bits) = Undefined)
  /\ (use_builtin_overflow_ops B = true ->
      overflowing_mul B bits (-1) (min_of bits)
      = Ret {| value := min_of bits; overflowed := true |}).
Proof.
  intros sized wide. pose proof (bits_pos B bits sized) as Hpos.
  split; [apply small_in_range; [destruct sized; assumption | lia] |].
  split; [apply min_of_in_range, Hpos |].
  split; [apply (minus_one_times_min_out_of_range B bits sized) |].
  split; intros Hb.
  - unfold overflowing_mul. rewrite Hb.
    rewrite (wrapping_mul_minus_one_min B bits sized wide). cbn [bind negb Z.eqb].
    rewrite (native_div_min_minus_one B bits sized wide). reflexivity.
  - rewrite (overflowing_mul_builtin_eq B bits sized) by exact Hb.
    assert (fits bits (-1 * min_of bits) = false) as ->
      by (apply fits_false, (minus_one_times_min_out_of_range B bits sized)).
    f_equal. f_equal.
    pose proof (wrapping_mul_minus_one_min B bits sized wide) as Hw.
    rewrite (wrapping_mul_wide B bits sized) in Hw by exact wide.
    injection Hw as Hw. exact Hw.
Qed.

Lemma overflowing_mul_portable_min_by_minus_one_witness :
  overflowing_mul portable_strict 32 (-1) (-2147483648) = Undefined.
Proof.
  apply (overflowing_mul_portable_min_by_minus_one portable_strict 32).
  - concrete_widths.
  - simpl; lia.
  - reflexivity.
Defined.



(** In a type narrower than [int] the same division is done in [int] and
    the flag comes out right. *)
Example overflowing_mul_min_by_minus_one_char :
  overflowing_mul portable_strict 8 (-1) (min_of 8)
  = Ret {| value := min_of 8; overflowed := true |}.
Proof. reflexivity. Qed.

(** In a 16-bit type with a 32-bit [int] the product in [U] is taken in
    [int], which it can leave. *)
Example wrapping_mul_short_undefined :
  wrapping_mul portable_strict 16 (-1) (-1) = Undefined.
Proof. reflexivity. Qed.

(** * Further properties of the operations *)

(** Discharges the range conditions at concrete operands. *)
Ltac concrete_range := unfold in_range, min_of, max_of; simpl; lia.

(** ** Subtraction, continued *)

(** X1. For every signed integral type and all [a], [b], [wrapping_sub]
    returns the one value of [T] that is congruent to [a - b] modulo
    [2^bits]; it reports no failure and is never undefined. *)
Theorem wrapping_sub_modular (B : build) (bits a b : Z) :
  well_sized B bits ->
  exists v,
    wrapping_sub B bits a b = Ret v
    /\ in_range bits v
    /\ v mod 2 ^ bits = (a - b) mod 2 ^ bits
    /\ forall v', in_range bits v' -> v' mod 2 ^ bits = (a - b) mod 2 ^ bits -> v' = v.
Proof.
  intros sized. pose proof (bits_pos B bits sized) as Hpos.
  pose proof (to_signed_in_range bits (a - b) Hpos) as Hv.
  exists (to_signed bits (a - b)). split; [| split; [| split]].
  - apply wrapping_sub_eq, sized.
  - exact Hv.
  - apply to_signed_congruent, Hpos.
  - intros v' Hv' Hcong. apply (in_range_congruent_eq bits); try assumption.
    rewrite Hcong. symmetry. apply to_signed_congruent, Hpos.
Qed.

Lemma wrapping_sub_modular_witness :
  exists v,
    wrapping_sub portable_strict 8 (-100) 100 = Ret v
    /\ in_range 8 v
    /\ v mod 2 ^ 8 = (-100 - 100) mod 2 ^ 8
    /\ forall v', in_range 8 v' -> v' mod 2 ^ 8 = (-100 - 100) mod 2 ^ 8 -> v' = v.
Proof.
  apply (wrapping_sub_modular portable_strict 8 (-100) 100). concrete_widths.
Defined.

(** X2. For all operands of a signed integral type, [overflowing_sub]
    returns a result whose flag is set exactly when the exact difference is
    outside [[min(T), max(T)]] and whose value is what [wrapping_sub]
    returns, with the overflow builtins and with the sign analysis alike. *)
Theorem overflowing_sub_correct (B : build) (bits a b : Z) :
  well_sized B bits -> in_range bits a -> in_range bits b ->
  exists res,
    overflowing_sub B bits a b = Ret res
    /\ (overflowed res = true <-> ~ in_range bits (a - b))
    /\ wrapping_sub B bits a b = Ret (value res).
Proof.
  intros sized Ha Hb.
  exists {| value := to_signed bits (a - b); overflowed := negb (fits bits (a - b)) |}.
  split; [| split].
  - apply overflowing_sub_eq; assumption.
  - cbn. rewrite negb_true_iff. apply fits_false.
  - cbn. apply wrapping_sub_eq, sized.
Qed.

Lemma overflowing_sub_correct_witness :
  exists res,
    overflowing_sub portable_strict 32 (-2147483648) 1 = Ret res
    /\ (overflowed res = true <-> ~ in_range 32 (-2147483648 - 1))
    /\ wrapping_sub portable_strict 32 (-2147483648) 1 = Ret (value res).
Proof.
  apply (overflowing_sub_correct portable_strict 32 (-2147483648) 1).
  - concrete_widths.
  - concrete_range.
  - concrete_range.
Defined.

(** ** The strict policy decides by the exact result *)

(** X3. Under the [fail] overflow policy, at run time, [checked_add] returns
    the exact sum when it is a value of [T] and reports "signed overflow in
    addition" otherwise; it is never undefined. *)
Theorem checked_add_fail_exact (B : build) (bits a b : Z) :
  well_sized B bits -> on_overflow B = overflow_policy.fail ->
  in_range bits a -> in_range bits b ->
  checked_add B bits false a b
  = if fits bits (a + b) then Ret (a + b) else Fail "signed overflow in addition".
Proof.
  intros sized Hpol Ha Hb. unfold checked_add. rewrite Hpol.
  rewrite (overflowing_add_eq B bits sized) by assumption. cbn.
  destruct (fits bits (a + b)) eqn:Hfit; cbn; [| reflexivity].
  f_equal. apply to_signed_id; [exact (bits_pos B bits sized) |].
  apply fits_in_range, Hfit.
Qed.

Lemma checked_add_fail_exact_witness :
  checked_add portable_strict 16 false 30000 5000 = Fail "signed overflow in addition".
Proof.
  apply (checked_add_fail_exact portable_strict 16 30000 5000).
  - concrete_widths.
  - reflexivity.
  - concrete_range.
  - concrete_range.
Defined.

(** X4. Under the [fail] overflow policy, at run time, [checked_sub] returns
    the exact difference when it is a value of [T] and reports "signed
    overflow in subtraction" otherwise; it is never undefined. *)
Theorem checked_sub_fail_exact (B : build) (bits a b : Z) :
  well_sized B bits -> on_overflow B = overflow_policy.fail ->
  in_range bits a -> in_range bits b ->
  checked_sub B bits false a b
  = if fits bits (a - b) then Ret (a - b) else Fail "signed overflow in subtraction".
Proof.
  intros sized Hpol Ha Hb. unfold checked_sub. rewrite Hpol.
  rewrite (overflowing_sub_eq B bits sized) by assumption. cbn.
  destruct (fits bits (a - b)) eqn:Hfit; cbn; [| reflexivity].
  f_equal. apply to_signed_id; [exact (bits_pos B bits sized) |].
  apply fits_in_range, Hfit.
Qed.

Lemma checked_sub_fail_exact_witness :
  checked_sub builtin_strict 8 false (-1) (-128) = Ret 127.
Proof.
  apply (checked_sub_fail_exact builtin_strict 8 (-1) (-128)).
  - concrete_widths.
  - reflexivity.
  - concrete_range.
  - concrete_range.
Defined.

(** X5. [checked_add] does not depend on the order of its operands: in
    every build, under every policy, at run time and in a constant
    evaluation, for all integers. *)
Theorem checked_add_comm (B : build) (bits : Z) (constant_evaluated : bool) (a b : Z) :
  checked_add B bits constant_evaluated a b = checked_add B bits constant_evaluated b a.
Proof.
  unfold checked_add, overflowing_add, wrapping_add.
  rewrite (Z.add_comm b a), (Z.add_comm (to_unsigned bits b)).
  destruct constant_evaluated; [reflexivity |].
  destruct (on_overflow B); try reflexivity.
  destruct (use_builtin_overflow_ops B); [reflexivity |].
  destruct (unsigned_arith B bits _) as [r | m |]; cbn; try reflexivity.
  destruct (a <? 0), (b <? 0), (to_signed bits r <? 0); reflexivity.
Qed.

(** ** Multiplication, continued *)

Lemma to_unsigned_minus_one bits : 1 <= bits -> to_unsigned bits (-1) = 2 ^ bits - 1.
Proof.
  intros H. pose proof (pow2_half_pos bits H). pose proof (pow2_double bits H).
  unfold to_unsigned.
  replace (-1) with (2 ^ bits - 1 + (-1) * 2 ^ bits) by lia.
  rewrite Z.mod_add by lia. apply Z.mod_small. lia.
Qed.

Section MultiplicationInEveryBuild.

Variable B : build.
Variable bits : Z.
Hypothesis sized : well_sized B bits.

(** The product in [U] is the wrapped product or it is undefined. *)
Lemma wrapping_mul_cases a b :
  wrapping_mul B bits a b = Ret (to_signed bits (a * b))
  \/ wrapping_mul B bits a b = Undefined.
Proof.
  pose proof (bits_pos B bits sized) as Hpos.
  destruct (Z_lt_le_dec bits (int_bits B)) as [Hnarrow | Hwide].
  - unfold wrapping_mul, unsigned_arith.
    destruct (Z.ltb_spec bits (int_bits B)); [| lia].
    destruct (fits (int_bits B) _); [left | right; reflexivity].
    cbn. f_equal. apply to_signed_mul_unsigned.
  - left. apply wrapping_mul_wide; assumption.
Qed.

Lemma wrapping_mul_stays a b :
  product_stays B bits -> wrapping_mul B bits a b = Ret (to_signed bits (a * b)).
Proof.
  intros [Hwide | Hnarrow];
    [apply wrapping_mul_wide | apply wrapping_mul_narrow]; assumption.
Qed.

(** Whatever the portable branch returns is the wrapped product with the
    right flag. *)
Lemma overflowing_mul_returns a b res :
  in_range bits a -> in_range bits b ->
  overflowing_mul B bits a b = Ret res ->
  res = {| value := to_signed bits (a * b); overflowed := negb (fits bits (a * b)) |}.
Proof.
  intros Ha Hb. pose proof (bits_pos B bits sized) as Hpos.
  unfold overflowing_mul. destruct (use_builtin_overflow_ops B).
  - rewrite builtin_overflow_eq by assumption. intros [= <-]. reflexivity.
  - destruct (wrapping_mul_cases a b) as [-> | ->]; [| discriminate]. cbn.
    destruct (Z.eqb_spec a 0) as [-> | Hnz]; cbn.
    + intros [= <-]. f_equal.
      assert (fits bits 0 = true) as ->; [| reflexivity].
      apply fits_in_range. pose proof (pow2_half_pos bits Hpos).
      unfold in_range, min_of, max_of. lia.
    + unfold native_div. destruct (Z.eqb_spec a 0) as [| _]; [contradiction |].
      unfold signed_arith. destruct (fits (promoted_bits B bits) _); [| discriminate].
      cbn. intros [= <-]. rewrite mul_division_check by assumption. reflexivity.
Qed.

Lemma overflowing_mul_not_fail a b msg : overflowing_mul B bits a b <> Fail msg.
Proof.
  unfold overflowing_mul, wrapping_mul, unsigned_arith, native_div, signed_arith.
  destruct (use_builtin_overflow_ops B); [discriminate |].
  destruct (bits <? int_bits B); [destruct (fits (int_bits B) _) |]; cbn; try discriminate.
  - destruct (a =? 0); cbn; [discriminate |].
    destruct (fits (promoted_bits B bits) _); discriminate.
  - destruct (a =? 0); cbn; [discriminate |].
    destruct (fits (promoted_bits B bits) _); discriminate.
Qed.

(** Where [overflowing_mul] returns for sure. *)
Lemma overflowing_mul_eq_when a b :
  in_range bits a -> in_range bits b ->
  use_builtin_overflow_ops B = true
  \/ 2 * bits < int_bits B
  \/ (int_bits B <= bits /\ ~ (a = -1 /\ b = min_of bits)) ->
  overflowing_mul B bits a b
  = Ret {| value := to_signed bits (a * b); overflowed := negb (fits bits (a * b)) |}.
Proof.
  intros Ha Hb [Hbuiltin | Hportable].
  - apply overflowing_mul_builtin_eq; assumption.
  - destruct (use_builtin_overflow_ops B) eqn:Hb'.
    + apply overflowing_mul_builtin_eq; assumption.
    + apply overflowing_mul_portable_eq; try assumption.
      destruct Hportable as [Hn | Hw]; [right | left]; assumption.
Qed.

End MultiplicationInEveryBuild.

(** X6. Where the product in [U] stays in the type it is computed in ([T]
    is [int] or wider, or has less than half the width of [int]),
    [wrapping_mul] returns the one value of [T] congruent to [a * b] modulo
    [2^bits]. *)
Theorem wrapping_mul_modular (B : build) (bits a b : Z) :
  well_sized B bits -> product_stays B bits ->
  exists v,
    wrapping_mul B bits a b = Ret v
    /\ in_range bits v
    /\ v mod 2 ^ bits = (a * b) mod 2 ^ bits
    /\ forall v', in_range bits v' -> v' mod 2 ^ bits = (a * b) mod 2 ^ bits -> v' = v.
Proof.
  intros sized Hstays. pose proof (bits_pos B bits sized) as Hpos.
  pose proof (to_signed_in_range bits (a * b) Hpos) as Hv.
  exists (to_signed bits (a * b)). split; [| split; [| split]].
  - apply wrapping_mul_stays; assumption.
  - exact Hv.
  - apply to_signed_congruent, Hpos.
  - intros v' Hv' Hcong. apply (in_range_congruent_eq bits); try assumption.
    rewrite Hcong. symmetry. apply to_signed_congruent, Hpos.
Qed.

Lemma wrapping_mul_modular_witness :
  exists v,
    wrapping_mul portable_strict 32 65536 65536 = Ret v
    /\ in_range 32 v
    /\ v mod 2 ^ 32 = (65536 * 65536) mod 2 ^ 32
    /\ forall v', in_range 32 v' -> v' mod 2 ^ 32 = (65536 * 65536) mod 2 ^ 32 -> v' = v.
Proof.
  apply (wrapping_mul_modular portable_strict 32 65536 65536).
  - concrete_widths.
  - unfold product_stays; simpl; lia.
Defined.

(** X7. In a type narrower than [int] but of half its width or more (a
    16-bit [short] beside a 32-bit [int]), [wrapping_mul(-1, -1)] is
    undefined: the operands become [2^bits - 1] in [U], are promoted to
    [int], and their product does not fit [int]. *)
Theorem wrapping_mul_narrow_undefined (B : build) (bits : Z) :
  well_sized B bits -> bits < int_bits B -> int_bits B <= 2 * bits ->
  wrapping_mul B bits (-1) (-1) = Undefined.
Proof.
  intros sized Hnarrow Hhalf. pose proof (bits_pos B bits sized) as Hpos.
  assert (2 <= bits) as H2 by (destruct sized; assumption).
  unfold wrapping_mul, unsigned_arith.
  destruct (Z.ltb_spec bits (int_bits B)); [| lia].
  rewrite to_unsigned_minus_one by assumption.
  assert (fits (int_bits B) ((2 ^ bits - 1) * (2 ^ bits - 1)) = false) as ->;
    [| reflexivity].
  apply fits_false. unfold in_range, min_of, max_of.
  pose proof (pow2_double bits Hpos) as Hd.
  assert (2 ^ 1 <= 2 ^ (bits - 1)) as Hh by (apply Z.pow_le_mono_r; lia).
  change (2 ^ 1) with 2 in Hh.
  assert (2 ^ (int_bits B - 1) <= 2 ^ (bits + (bits - 1))) as Hib
    by (apply Z.pow_le_mono_r; lia).
  rewrite Z.pow_add_r in Hib by lia.
  nia.
Qed.

Lemma wrapping_mul_narrow_undefined_witness :
  wrapping_mul portable_wrap 16 (-1) (-1) = Undefined.
Proof.
  apply (wrapping_mul_narrow_undefined portable_wrap 16).
  - concrete_widths.
  - simpl; lia.
  - simpl; lia.
Defined.

(** X8. In every build, [overflowing_mul] reports no failure of its own,
    for any operands; and whenever it returns for operands of [T], the
    value is the wrapped product and the flag is set exactly when the exact
    product is outside [[min(T), max(T)]]. *)
Theorem overflowing_mul_sound (B : build) (bits a b : Z) :
  (forall msg, overflowing_mul B bits a b <> Fail msg)
  /\ (well_sized B bits -> in_range bits a -> in_range bits b ->
      forall res, overflowing_mul B bits a b = Ret res ->
        value res = to_signed bits (a * b)
        /\ (overflowed res = true <-> ~ in_range bits (a * b))).
Proof.
  split.
  - intros msg. apply overflowing_mul_not_fail.
  - intros sized Ha Hb res Hres.
    rewrite (overflowing_mul_returns B bits sized a b res Ha Hb Hres). cbn.
    split; [reflexivity |].
    rewrite negb_true_iff. apply fits_false.
Qed.

Lemma overflowing_mul_sound_witness :
  (forall msg, overflowing_mul portable_strict 16 256 128 <> Fail msg)
  /\ overflowing_mul portable_strict 16 256 128
     = Ret {| value := -32768; overflowed := true |}
  /\ value {| value := -32768; overflowed := true |} = to_signed 16 (256 * 128)
  /\ (overflowed {| value := -32768; overflowed := true |} = true
      <-> ~ in_range 16 (256 * 128)).
Proof.
  destruct (overflowing_mul_sound portable_strict 16 256 128) as [Hnofail Hsound].
  split; [exact Hnofail |]. split; [reflexivity |].
  apply Hsound.
  - concrete_widths.
  - concrete_range.
  - concrete_range.
  - reflexivity.
Defined.

(** X9. With the overflow builtins, or in a type of less than half the width
    of [int], or in [int] and wider types for all operands but [lhs = -1]
    with [rhs = min(T)], [overflowing_mul] returns a result whose flag is
    set exactly when the exact product is outside [[min(T), max(T)]] and
    whose value is the wrapped product: the value that [wrapping_mul]
    returns whenever [wrapping_mul] returns, which it does where [T] is
    [int] or wider or has less than half the width of [int] (with the
    builtins, [overflowing_mul] also returns where [wrapping_mul] is
    undefined). *)
Theorem overflowing_mul_correct_when (B : build) (bits a b : Z) :
  well_sized B bits -> in_range bits a -> in_range bits b ->
  use_builtin_overflow_ops B = true
  \/ 2 * bits < int_bits B
  \/ (int_bits B <= bits /\ ~ (a = -1 /\ b = min_of bits)) ->
  exists res,
    overflowing_mul B bits a b = Ret res
    /\ (overflowed res = true <-> ~ in_range bits (a * b))
    /\ value res = to_signed bits (a * b)
    /\ (forall v, wrapping_mul B bits a b = Ret v -> v = value res)
    /\ (product_stays B bits -> wrapping_mul B bits a b = Ret (value res)).
Proof.
  intros sized Ha Hb Hwhen.
  exists {| value := to_signed bits (a * b); overflowed := negb (fits bits (a * b)) |}.
  split; [| split; [| split; [| split]]].
  - apply overflowing_mul_eq_when; assumption.
  - cbn. rewrite negb_true_iff. apply fits_false.
  - reflexivity.
  - cbn. intros v Hv.
    destruct (wrapping_mul_cases B bits sized a b) as [Hret | Hundef].
    + rewrite Hret in Hv. injection Hv as <-. reflexivity.
    + rewrite Hundef in Hv. discriminate Hv.
  - cbn. intros Hstays. apply wrapping_mul_stays; assumption.
Qed.

Lemma overflowing_mul_correct_when_witness :
  exists res,
    overflowing_mul portable_strict 32 (-2147483648) (-1) = Ret res
    /\ (overflowed res = true <-> ~ in_range 32 (-2147483648 * -1))
    /\ value res = to_signed 32 (-2147483648 * -1)
    /\ (forall v, wrapping_mul portable_strict 32 (-2147483648) (-1) = Ret v ->
                  v = value res)
    /\ (product_stays portable_strict 32 ->
        wrapping_mul portable_strict 32 (-2147483648) (-1) = Ret (value res)).
Proof.
  apply (overflowing_mul_correct_when portable_strict 32 (-2147483648) (-1)).
  - concrete_widths.
  - concrete_range.
  - concrete_range.
  - right; right. split; [simpl; lia |]. intros [H _]. discriminate H.
Defined.

(** With the builtins in a 16-bit type beside a 32-bit [int],
    [overflowing_mul(-1, -1)] returns where [wrapping_mul(-1, -1)] is
    undefined. *)
Example overflowing_mul_builtin_short :
  overflowing_mul builtin_strict 16 (-1) (-1) = Ret {| value := 1; overflowed := false |}
  /\ wrapping_mul builtin_strict 16 (-1) (-1) = Undefined.
Proof. split; reflexivity. Qed.

(** The strict policy on top of a reliable [overflowing_mul]. *)
Lemma checked_mul_strict_eq (B : build) (bits a b : Z) :
  well_sized B bits -> on_overflow B = overflow_policy.fail ->
  in_range bits a -> in_range bits b ->
  use_builtin_overflow_ops B = true
  \/ 2 * bits < int_bits B
  \/ (int_bits B <= bits /\ ~ (a = -1 /\ b = min_of bits)) ->
  checked_mul B bits false a b
  = if fits bits (a * b) then Ret (a * b) else Fail "signed overflow in multiplication".
Proof.
  intros sized Hpol Ha Hb Hwhen. unfold checked_mul. rewrite Hpol.
  rewrite (overflowing_mul_eq_when B bits sized) by assumption. cbn.
  destruct (fits bits (a * b)) eqn:Hfit; cbn; [| reflexivity].
  f_equal. apply to_signed_id; [exact (bits_pos B bits sized) |].
  apply fits_in_range, Hfit.
Qed.

(** X10. Under the [fail] overflow policy, at run time, and under the
    conditions of X9, [checked_mul] returns the exact product when it is a
    value of [T] and reports "signed overflow in multiplication"
    otherwise. *)
Theorem checked_mul_fail_exact (B : build) (bits a b : Z) :
  well_sized B bits -> on_overflow B = overflow_policy.fail ->
  in_range bits a -> in_range bits b ->
  use_builtin_overflow_ops B = true
  \/ 2 * bits < int_bits B
  \/ (int_bits B <= bits /\ ~ (a = -1 /\ b = min_of bits)) ->
  checked_mul B bits false a b
  = if fits bits (a * b) then Ret (a * b) else Fail "signed overflow in multiplication".
Proof. apply checked_mul_strict_eq. Qed.

Lemma checked_mul_fail_exact_witness :
  checked_mul builtin_strict 32 false (-1) (-2147483648)
  = Fail "signed overflow in multiplication".
Proof.
  apply (checked_mul_fail_exact builtin_strict 32 (-1) (-2147483648)).
  - concrete_widths.
  - reflexivity.
  - concrete_range.
  - concrete_range.
  - left. reflexivity.
Defined.

(** What the strict policy lets through in any build. *)
Lemma checked_mul_strict_sound (B : build) (bits a b : Z) :
  well_sized B bits -> on_overflow B = overflow_policy.fail ->
  in_range bits a -> in_range bits b ->
  (forall v, checked_mul B bits false a b = Ret v -> v = a * b /\ in_range bits v)
  /\ (forall msg, checked_mul B bits false a b = Fail msg ->
        msg = "signed overflow in multiplication" /\ ~ in_range bits (a * b)).
Proof.
  intros sized Hpol Ha Hb. pose proof (bits_pos B bits sized) as Hpos.
  unfold checked_mul. rewrite Hpol.
  destruct (overflowing_mul B bits a b) as [res | m |] eqn:Hres; cbn.
  - rewrite (overflowing_mul_returns B bits sized a b res Ha Hb Hres). cbn.
    destruct (fits bits (a * b)) eqn:Hfit; cbn.
    + apply fits_in_range in Hfit. split.
      * intros v [= <-]. rewrite to_signed_id by assumption. split; [reflexivity | assumption].
      * intros msg [=].
    + apply fits_false in Hfit. split.
      * intros v [=].
      * intros msg [= <-]. split; [reflexivity | assumption].
  - exfalso. apply (overflowing_mul_not_fail B bits a b m Hres).
  - split; intros ? [=].
Qed.

(** X11. Under the [fail] overflow policy, at run time and in every build,
    [checked_mul] never returns a wrong product: a returned value is the
    exact product, and a reported failure is "signed overflow in
    multiplication" for a product that is not a value of [T]. *)
Theorem checked_mul_fail_sound (B : build) (bits a b : Z) :
  well_sized B bits -> on_overflow B = overflow_policy.fail ->
  in_range bits a -> in_range bits b ->
  (forall v, checked_mul B bits false a b = Ret v -> v = a * b /\ in_range bits v)
  /\ (forall msg, checked_mul B bits false a b = Fail msg ->
        msg = "signed overflow in multiplication" /\ ~ in_range bits (a * b)).
Proof. apply checked_mul_strict_sound. Qed.

Lemma checked_mul_fail_sound_witness :
  (forall v, checked_mul portable_strict 16 false 181 181 = Ret v ->
             v = 181 * 181 /\ in_range 16 v)
  /\ (forall msg, checked_mul portable_strict 16 false 181 181 = Fail msg ->
        msg = "signed overflow in multiplication" /\ ~ in_range 16 (181 * 181)).
Proof.
  apply (checked_mul_fail_sound portable_strict 16 181 181).
  - concrete_widths.
  - reflexivity.
  - concrete_range.
  - concrete_range.
Defined.

(** ** Neutral and absorbing operands *)

Section Raw.

Variable B : build.
Variable bits : Z.
Hypothesis sized : well_sized B bits.

(** The built-in operator on operands of [T], returned as [T], when the
    exact result is a value of [T]. *)
Lemma return_exact z :
  in_range bits z -> return_as_T bits (signed_arith B bits z) = Ret z.
Proof.
  intros Hz. unfold return_as_T, signed_arith.
  rewrite (proj2 (fits_in_range _ z) (promoted_in_range B bits sized z Hz)). cbn.
  f_equal. apply to_signed_id; [exact (bits_pos B bits sized) | assumption].
Qed.

(** In a type narrower than [int] no quotient of two values of [T] leaves
    [int]. *)
Lemma native_div_narrow v a :
  bits < int_bits B -> in_range bits v -> a <> 0 ->
  native_div B bits v a = Ret (v ÷ a).
Proof.
  intros Hnarrow Hv Hnz. pose proof (bits_pos B bits sized) as Hpos.
  unfold native_div. destruct (Z.eqb_spec a 0) as [| _]; [contradiction |].
  unfold signed_arith.
  assert (fits (promoted_bits B bits) (v ÷ a) = true) as ->; [| reflexivity].
  apply fits_in_range.
  pose proof (quot_abs_mul_le v a Hnz) as Hle.
  pose proof (pow2_half_pos bits Hpos).
  unfold in_range, min_of, max_of, promoted_bits in *.
  assert (2 * 2 ^ (bits - 1) <= 2 ^ (Z.max bits (int_bits B) - 1)).
  { rewrite <- (pow2_double bits Hpos). apply Z.pow_le_mono_r; lia. }
  nia.
Qed.

(** In [int] and wider types the quotient is a value of [T] but for
    [min / -1]. *)
Lemma native_div_wide v a :
  int_bits B <= bits -> in_range bits v -> a <> 0 -> ~ (v = min_of bits /\ a = -1) ->
  native_div B bits v a = Ret (v ÷ a).
Proof.
  intros Hwide Hv Hnz Hex. pose proof (bits_pos B bits sized) as Hpos.
  unfold native_div. destruct (Z.eqb_spec a 0) as [| _]; [contradiction |].
  unfold signed_arith.
  assert (fits (promoted_bits B bits) (v ÷ a) = true) as ->; [| reflexivity].
  apply fits_in_range, promoted_in_range; [assumption |].
  apply quot_in_range; assumption.
Qed.

Lemma native_div_eq v a :
  in_range bits v -> a <> 0 -> ~ (v = min_of bits /\ a = -1) ->
  native_div B bits v a = Ret (v ÷ a).
Proof.
  intros Hv Hnz Hex. destruct (Z_lt_le_dec bits (int_bits B)).
  - apply native_div_narrow; assumption.
  - apply native_div_wide; assumption.
Qed.

(** A product in [U] below [2^(bits+1)] is defined in every build. *)
Lemma wrapping_mul_small a b :
  to_unsigned bits a * to_unsigned bits b < 2 * 2 ^ bits ->
  wrapping_mul B bits a b = Ret (to_signed bits (a * b)).
Proof.
  intros Hsmall. unfold wrapping_mul.
  pose proof (to_unsigned_bound B bits sized a). pose proof (to_unsigned_bound B bits sized b).
  destruct (unsigned_arith_small B bits sized (to_unsigned bits a * to_unsigned bits b))
    as (r & -> & Hr); [nia |].
  cbn. f_equal. rewrite <- to_signed_mul_unsigned.
  apply to_signed_of_congruent, Hr.
Qed.

(** The portable branch, once the product in [U] is defined and the
    division is not [min / -1] in a wide type. *)
Lemma overflowing_mul_portable_defined a b :
  use_builtin_overflow_ops B = false ->
  in_range bits a -> in_range bits b ->
  wrapping_mul B bits a b = Ret (to_signed bits (a * b)) ->
  ~ (to_signed bits (a * b) = min_of bits /\ a = -1) ->
  overflowing_mul B bits a b
  = Ret {| value := to_signed bits (a * b); overflowed := negb (fits bits (a * b)) |}.
Proof.
  intros Hb Ha Hrb Hmul Hex. pose proof (bits_pos B bits sized) as Hpos.
  unfold overflowing_mul. rewrite Hb, Hmul. cbn.
  destruct (Z.eqb_spec a 0) as [-> | Hnz]; cbn.
  - assert (fits bits 0 = true) as ->; [| reflexivity].
    apply fits_in_range. pose proof (pow2_half_pos bits Hpos).
    unfold in_range, min_of, max_of. lia.
  - rewrite native_div_eq; try assumption.
    + cbn. rewrite mul_division_check by assumption. reflexivity.
    + apply to_signed_in_range, Hpos.
Qed.

End Raw.

Section Representable.

Variable B : build.
Variable bits : Z.
Hypothesis sized : well_sized B bits.
Variable constant_evaluated : bool.

Lemma checked_mul_defined a b :
  in_range bits a -> in_range bits b -> in_range bits (a * b) ->
  wrapping_mul B bits a b = Ret (to_signed bits (a * b)) ->
  checked_mul B bits constant_evaluated a b = Ret (a * b).
Proof.
  intros Ha Hb Hab Hmul. pose proof (bits_pos B bits sized) as Hpos.
  unfold checked_mul.
  destruct constant_evaluated; [apply return_exact; assumption |].
  destruct (on_overflow B).
  - apply return_exact; assumption.
  - rewrite Hmul, to_signed_id by assumption. reflexivity.
  - assert (overflowing_mul B bits a b
            = Ret {| value := to_signed bits (a * b);
                     overflowed := negb (fits bits (a * b)) |}) as ->.
    { destruct (use_builtin_overflow_ops B) eqn:Hbuiltin.
      - apply overflowing_mul_builtin_eq; assumption.
      - apply overflowing_mul_portable_defined; try assumption.
        rewrite to_signed_id by assumption. intros [Hmin ->].
        pose proof (pow2_half_pos bits Hpos).
        unfold in_range, min_of, max_of in *. lia. }
    cbn. rewrite (proj2 (fits_in_range bits (a * b)) Hab), to_signed_id by assumption.
    reflexivity.
Qed.

End Representable.

(** X12. When the exact sum (difference) of two values of [T] is a value of
    [T], [checked_add] ([checked_sub]) returns it under each of the three
    overflow policies, at run time and in a constant evaluation, in every
    build. *)
Theorem checked_add_sub_representable (B : build) (bits : Z) (constant_evaluated : bool)
  (a b : Z) :
  well_sized B bits -> in_range bits a -> in_range bits b ->
  (in_range bits (a + b) -> checked_add B bits constant_evaluated a b = Ret (a + b))
  /\ (in_range bits (a - b) -> checked_sub B bits constant_evaluated a b = Ret (a - b)).
Proof.
  intros sized Ha Hb. pose proof (bits_pos B bits sized) as Hpos.
  split; intros Hab.
  - unfold checked_add.
    destruct constant_evaluated; [apply return_exact; assumption |].
    destruct (on_overflow B).
    + apply return_exact; assumption.
    + rewrite (wrapping_add_eq B bits sized), to_signed_id by assumption. reflexivity.
    + rewrite (overflowing_add_eq B bits sized) by assumption. cbn.
      rewrite (proj2 (fits_in_range bits (a + b)) Hab), to_signed_id by assumption.
      reflexivity.
  - unfold checked_sub.
    destruct constant_evaluated; [apply return_exact; assumption |].
    destruct (on_overflow B).
    + apply return_exact; assumption.
    + rewrite (wrapping_sub_eq B bits sized), to_signed_id by assumption. reflexivity.
    + rewrite (overflowing_sub_eq B bits sized) by assumption. cbn.
      rewrite (proj2 (fits_in_range bits (a - b)) Hab), to_signed_id by assumption.
      reflexivity.
Qed.

Lemma checked_add_sub_representable_witness :
  checked_add portable_wrap 16 true 100 50 = Ret (100 + 50)
  /\ checked_sub portable_wrap 16 true 100 50 = Ret (100 - 50).
Proof.
  destruct (checked_add_sub_representable portable_wrap 16 true 100 50)
    as [Hadd Hsub].
  - concrete_widths.
  - concrete_range.
  - concrete_range.
  - split; [apply Hadd | apply Hsub]; concrete_range.
Defined.

(** X13. Where the product in [U] stays in the type it is computed in, and
    the exact product of two values of [T] is a value of [T], [checked_mul]
    returns it under each of the three overflow policies, at run time and in
    a constant evaluation, with and without the overflow builtins. *)
Theorem checked_mul_representable (B : build) (bits : Z) (constant_evaluated : bool)
  (a b : Z) :
  well_sized B bits -> product_stays B bits ->
  in_range bits a -> in_range bits b -> in_range bits (a * b) ->
  checked_mul B bits constant_evaluated a b = Ret (a * b).
Proof.
  intros sized Hstays Ha Hb Hab.
  apply checked_mul_defined; try assumption.
  apply wrapping_mul_stays; assumption.
Qed.

Lemma checked_mul_representable_witness :
  checked_mul portable_strict 32 false (-1) 2147483647 = Ret (-1 * 2147483647).
Proof.
  apply (checked_mul_representable portable_strict 32 false (-1) 2147483647).
  - concrete_widths.
  - unfold product_stays; simpl; lia.
  - concrete_range.
  - concrete_range.
  - concrete_range.
Defined.

(** X14. One is neutral and zero absorbing for [checked_mul], on either
    side, for every value of [T]: in every build (also where other products
    in [U] leave [int]), under every policy, at run time and in a constant
    evaluation. *)
Theorem checked_mul_one_zero (B : build) (bits : Z) (constant_evaluated : bool) (a : Z) :
  well_sized B bits -> in_range bits a ->
  checked_mul B bits constant_evaluated a 1 = Ret a
  /\ checked_mul B bits constant_evaluated 1 a = Ret a
  /\ checked_mul B bits constant_evaluated a 0 = Ret 0
  /\ checked_mul B bits constant_evaluated 0 a = Ret 0.
Proof.
  intros sized Ha. pose proof (bits_pos B bits sized) as Hpos.
  assert (2 <= bits) as H2 by (destruct sized; assumption).
  pose proof (pow2_half_pos bits Hpos) as Hp.
  pose proof (pow2_double bits Hpos) as Hd.
  pose proof (to_unsigned_bound B bits sized a) as Hua.
  assert (to_unsigned bits 1 = 1) as Hu1 by (apply Z.mod_small; lia).
  assert (to_unsigned bits 0 = 0) as Hu0 by (apply Z.mod_0_l; lia).
  assert (in_range bits 1) as H1 by (apply small_in_range; lia).
  assert (in_range bits 0) as H0 by (apply small_in_range; lia).
  split; [| split; [| split]].
  - replace a with (a * 1) at 2 by lia.
    apply checked_mul_defined; try assumption;
      try (rewrite Z.mul_1_r; assumption).
    apply wrapping_mul_small; [assumption | rewrite Hu1; lia].
  - replace a with (1 * a) at 2 by lia.
    apply checked_mul_defined; try assumption;
      try (rewrite Z.mul_1_l; assumption).
    apply wrapping_mul_small; [assumption | rewrite Hu1; lia].
  - replace 0 with (a * 0) at 2 by lia.
    apply checked_mul_defined; try assumption;
      try (rewrite Z.mul_0_r; assumption).
    apply wrapping_mul_small; [assumption | rewrite Hu0; lia].
  - replace 0 with (0 * a) at 2 by lia.
    apply checked_mul_defined; try assumption;
      try (rewrite Z.mul_0_l; assumption).
    apply wrapping_mul_small; [assumption | rewrite Hu0; lia].
Qed.

Lemma checked_mul_one_zero_witness :
  checked_mul portable_strict 16 false (-32768) 1 = Ret (-32768)
  /\ checked_mul portable_strict 16 false 1 (-32768) = Ret (-32768)
  /\ checked_mul portable_strict 16 false (-32768) 0 = Ret 0
  /\ checked_mul portable_strict 16 false 0 (-32768) = Ret 0.
Proof.
  apply (checked_mul_one_zero portable_strict 16 false (-32768)).
  - concrete_widths.
  - concrete_range.
Defined.

(** ** Without detection: the [ignore] policy and constant evaluation *)

(** X15. In a constant evaluation, and at run time under the [ignore]
    policy, [checked_add] and [checked_sub] apply the built-in operator: in
    [int] and wider types the exact result is returned when it is a value of
    [T] and the operation is undefined otherwise; in a type narrower than
    [int] the operator works in [int] and the result is converted back, so
    the wrapped result is returned and an overflow goes unnoticed. *)
Theorem checked_add_sub_unchecked (B : build) (bits : Z) (constant_evaluated : bool)
  (a b : Z) :
  well_sized B bits -> in_range bits a -> in_range bits b ->
  constant_evaluated = true \/ on_overflow B = overflow_policy.ignore ->
  checked_add B bits constant_evaluated a b
  = (if bits <? int_bits B then Ret (to_signed bits (a + b))
     else if fits bits (a + b) then Ret (a + b) else Undefined)
  /\ checked_sub B bits constant_evaluated a b
     = (if bits <? int_bits B then Ret (to_signed bits (a - b))
        else if fits bits (a - b) then Ret (a - b) else Undefined).
Proof.
  intros sized Ha Hb Hraw. pose proof (bits_pos B bits sized) as Hpos.
  pose proof (pow2_half_pos bits Hpos) as Hp.
  pose proof (pow2_double bits Hpos) as Hd.
  assert (forall z, - 2 ^ bits <= z < 2 ^ bits ->
            return_as_T bits (signed_arith B bits z)
            = (if bits <? int_bits B then Ret (to_signed bits z)
               else if fits bits z then Ret z else Undefined)) as Hop.
  { intros z Hz. unfold return_as_T, signed_arith, promoted_bits.
    destruct (Z.ltb_spec bits (int_bits B)) as [Hnarrow | Hwide].
    - rewrite Z.max_r by lia.
      assert (fits (int_bits B) z = true) as ->; [| reflexivity].
      apply fits_in_range. unfold in_range, min_of, max_of.
      assert (2 ^ bits <= 2 ^ (int_bits B - 1)) by (apply Z.pow_le_mono_r; lia).
      lia.
    - rewrite Z.max_l by lia.
      destruct (fits bits z) eqn:Hfit; [| reflexivity].
      cbn. f_equal. apply to_signed_id; [assumption | apply fits_in_range, Hfit]. }
  unfold in_range, min_of, max_of in Ha, Hb.
  unfold checked_add, checked_sub.
  destruct Hraw as [-> | ->]; [| destruct constant_evaluated];
    (split; apply Hop; lia).
Qed.

Lemma checked_add_sub_unchecked_witness :
  checked_add portable_strict 8 true 127 1 = Ret (-128)
  /\ checked_sub portable_strict 8 true 127 1 = Ret 126.
Proof.
  apply (checked_add_sub_unchecked portable_strict 8 true 127 1).
  - concrete_widths.
  - concrete_range.
  - concrete_range.
  - left. reflexivity.
Defined.

(** In a constant evaluation at [signed char], [max + 1] is [min]; at [int]
    it is no constant expression. *)
Example checked_add_constant_char :
  checked_add portable_strict 8 true 127 1 = Ret (-128).
Proof. reflexivity. Qed.

Example checked_add_constant_int :
  checked_add portable_strict 32 true 2147483647 1 = Undefined.
Proof. reflexivity. Qed.

(** ** Division and remainder, continued *)

Lemma native_mod_div B bits a b :
  native_mod B bits a b = (_ <- native_div B bits a b ;; Ret (Z.rem a b)).
Proof. unfold native_mod, native_div. destruct (b =? 0); reflexivity. Qed.

(** With a non-zero divisor the guard of the strict policy is passed and
    all branches do the same. *)
Lemma checked_div_nonzero B bits constant_evaluated a b :
  b <> 0 ->
  checked_div B bits constant_evaluated a b = return_as_T bits (native_div B bits a b)
  /\ checked_mod B bits constant_evaluated a b = return_as_T bits (native_mod B bits a b).
Proof.
  intros Hnz. unfold checked_div, checked_mod.
  destruct (Z.eqb_spec b 0) as [| _]; [contradiction |].
  destruct constant_evaluated, (on_divide_by_zero B); split; reflexivity.
Qed.

(** X16. For a non-zero divisor, and unless [min(T)] is divided by [-1],
    [checked_div] and [checked_mod] return the truncated quotient [q] and
    the remainder [r] of the values of [T]: [a = b * q + r], [r] is smaller
    than [b] in magnitude and has the sign of [a]; under both policies, at
    run time and in a constant evaluation. *)
Theorem checked_div_mod_truncating (B : build) (bits : Z) (constant_evaluated : bool)
  (a b : Z) :
  well_sized B bits -> in_range bits a -> in_range bits b ->
  b <> 0 -> ~ (a = min_of bits /\ b = -1) ->
  exists q r,
    checked_div B bits constant_evaluated a b = Ret q
    /\ checked_mod B bits constant_evaluated a b = Ret r
    /\ in_range bits q /\ in_range bits r
    /\ a = b * q + r /\ Z.abs r < Z.abs b /\ 0 <= r * a.
Proof.
  intros sized Ha Hb Hnz Hex. pose proof (bits_pos B bits sized) as Hpos.
  pose proof (quot_in_range bits a b Hpos Ha Hnz Hex) as Hq.
  pose proof (Z.rem_bound_abs a b Hnz) as Hr.
  assert (in_range bits (Z.rem a b)) as Hrem
    by (unfold in_range, min_of, max_of in *; lia).
  destruct (checked_div_nonzero B bits constant_evaluated a b Hnz) as [-> ->].
  rewrite native_mod_div, (native_div_eq B bits sized a b Ha Hnz Hex). cbn.
  rewrite !to_signed_id by assumption.
  exists (a ÷ b), (Z.rem a b).
  split; [reflexivity |]. split; [reflexivity |].
  split; [exact Hq |]. split; [exact Hrem |].
  split; [apply Z.quot_rem' |]. split; [exact Hr |].
  apply Z.rem_sign_mul, Hnz.
Qed.

Lemma checked_div_mod_truncating_witness :
  exists q r,
    checked_div portable_strict 32 false (-7) 2 = Ret q
    /\ checked_mod portable_strict 32 false (-7) 2 = Ret r
    /\ in_range 32 q /\ in_range 32 r
    /\ -7 = 2 * q + r /\ Z.abs r < Z.abs 2 /\ 0 <= r * -7.
Proof.
  apply (checked_div_mod_truncating portable_strict 32 false (-7) 2).
  - concrete_widths.
  - concrete_range.
  - concrete_range.
  - discriminate.
  - intros [H _]. discriminate H.
Defined.

(** X17. [min(T)] divided by [-1], under both policies, at run time and in
    a constant evaluation: in [int] and wider types [checked_div] and
    [checked_mod] are undefined; in a type narrower than [int] the quotient
    is computed in [int] and converted back, so [checked_div] returns
    [min(T)] and [checked_mod] returns [0].  No failure is reported. *)
Theorem checked_div_mod_min_by_minus_one (B : build) (bits : Z) (constant_evaluated : bool) :
  well_sized B bits ->
  checked_div B bits constant_evaluated (min_of bits) (-1)
  = (if bits <? int_bits B then Ret (min_of bits) else Undefined)
  /\ checked_mod B bits constant_evaluated (min_of bits) (-1)
     = (if bits <? int_bits B then Ret 0 else Undefined).
Proof.
  intros sized. pose proof (bits_pos B bits sized) as Hpos.
  pose proof (pow2_half_pos bits Hpos) as Hp.
  pose proof (pow2_double bits Hpos) as Hd.
  destruct (checked_div_nonzero B bits constant_evaluated (min_of bits) (-1)) as [-> ->];
    [discriminate |].
  rewrite native_mod_div.
  destruct (Z.ltb_spec bits (int_bits B)) as [Hnarrow | Hwide].
  - rewrite (native_div_narrow B bits sized) by
      (assumption || discriminate || apply min_of_in_range, Hpos).
    cbn [bind return_as_T]. split; f_equal.
    + change (-1) with (- (1)). rewrite Z.quot_opp_r, Z.quot_1_r by lia.
      replace (- min_of bits) with (min_of bits + 1 * 2 ^ bits) by (unfold min_of; lia).
      rewrite to_signed_shift by assumption.
      apply to_signed_id, min_of_in_range; assumption.
    + change (-1) with (- (1)). rewrite Z.rem_opp_r, Z.rem_1_r by lia.
      apply to_signed_id; [assumption |]. apply small_in_range; destruct sized; lia.
  - rewrite (native_div_min_minus_one B bits sized Hwide). split; reflexivity.
Qed.

Lemma checked_div_mod_min_by_minus_one_witness :
  checked_div portable_strict 16 false (-32768) (-1) = Ret (-32768)
  /\ checked_mod portable_strict 16 false (-32768) (-1) = Ret 0.
Proof.
  apply (checked_div_mod_min_by_minus_one portable_strict 16 false). concrete_widths.
Defined.

(** X18. Under the [ignore] divide-by-zero policy, and in a constant
    evaluation, [checked_div] and [checked_mod] report no failure for any
    operands; with a zero divisor they are undefined. *)
Theorem checked_div_mod_unguarded (B : build) (bits : Z) (constant_evaluated : bool)
  (a b : Z) :
  constant_evaluated = true \/ on_divide_by_zero B = divide_by_zero_policy.ignore ->
  (forall msg, checked_div B bits constant_evaluated a b <> Fail msg)
  /\ (forall msg, checked_mod B bits constant_evaluated a b <> Fail msg)
  /\ checked_div B bits constant_evaluated a 0 = Undefined
  /\ checked_mod B bits constant_evaluated a 0 = Undefined.
Proof.
  intros Hraw.
  assert (forall x y, checked_div B bits constant_evaluated x y
                      = return_as_T bits (native_div B bits x y)) as Hdiv
    by (intros x y; unfold checked_div;
        destruct Hraw as [-> | ->]; [| destruct constant_evaluated]; reflexivity).
  assert (forall x y, checked_mod B bits constant_evaluated x y
                      = return_as_T bits (native_mod B bits x y)) as Hmod
    by (intros x y; unfold checked_mod;
        destruct Hraw as [-> | ->]; [| destruct constant_evaluated]; reflexivity).
  rewrite !Hdiv, !Hmod. split; [| split; [| split]].
  - intros msg. apply return_as_T_not_fail. intros m. apply native_div_not_fail.
  - intros msg. apply return_as_T_not_fail. intros m. apply native_mod_not_fail.
  - reflexivity.
  - reflexivity.
Qed.

Lemma checked_div_mod_unguarded_witness :
  checked_div portable_strict 32 true 5 0 = Undefined.
Proof.
  apply (checked_div_mod_unguarded portable_strict 32 true 5 0). left. reflexivity.
Defined.

(** ** The [wrap] policy *)

(** X19. Under the [wrap] overflow policy, at run time, [checked_sub]
    returns the value of [T] congruent to [a - b] modulo [2^bits] for all
    operands, and so does [checked_mul] for [a * b] where the product in [U]
    stays in the type it is computed in; no failure is reported. *)
Theorem checked_sub_mul_wrap (B : build) (bits a b : Z) :
  well_sized B bits -> on_overflow B = overflow_policy.wrap ->
  checked_sub B bits false a b = Ret (to_signed bits (a - b))
  /\ to_signed bits (a - b) mod 2 ^ bits = (a - b) mod 2 ^ bits
  /\ (product_stays B bits ->
      checked_mul B bits false a b = Ret (to_signed bits (a * b))
      /\ to_signed bits (a * b) mod 2 ^ bits = (a * b) mod 2 ^ bits).
Proof.
  intros sized Hpol. pose proof (bits_pos B bits sized) as Hpos.
  unfold checked_sub, checked_mul. rewrite Hpol.
  split; [apply wrapping_sub_eq, sized |].
  split; [apply to_signed_congruent, Hpos |].
  intros Hstays. split.
  - apply wrapping_mul_stays; assumption.
  - apply to_signed_congruent, Hpos.
Qed.

Lemma checked_sub_mul_wrap_witness :
  checked_sub portable_wrap 32 false (-2147483648) 1 = Ret 2147483647.
Proof.
  apply (checked_sub_mul_wrap portable_wrap 32 (-2147483648) 1).
  - concrete_widths.
  - reflexivity.
Defined.

(** ** Powers, continued *)

Lemma pow_small_base base (n : nat) :
  Z.abs base <= 1 -> Z.abs (base ^ Z.of_nat n) <= 1.
Proof.
  intros Hb. induction n as [| n IH].
  - cbn. lia.
  - rewrite Nat2Z.inj_succ, Z.pow_succ_r, Z.abs_mul by lia.
    apply (Z.le_trans _ (1 * 1)); [| lia].
    apply Z.mul_le_mono_nonneg; try assumption; apply Z.abs_nonneg.
Qed.

Lemma pow_not_minus_one base (n : nat) :
  2 <= Z.abs base -> base ^ Z.of_nat n <> -1.
Proof.
  intros Hb. destruct n as [| n].
  - cbn. discriminate.
  - rewrite Nat2Z.inj_succ, Z.pow_succ_r by lia. intros Heq.
    assert (Z.abs base * Z.abs (base ^ Z.of_nat n) = 1) as Habs
      by (rewrite <- Z.abs_mul, Heq; reflexivity).
    pose proof (Z.abs_nonneg (base ^ Z.of_nat n)) as Hp.
    revert Hb Habs Hp.
    generalize (Z.abs base), (Z.abs (base ^ Z.of_nat n)). intros x y Hx Hxy Hy.
    destruct (Z.eq_dec y 0) as [-> | Hne]; [lia |].
    assert (1 <= y) by lia. nia.
Qed.

(** A power that is a value of [T] is reached through values of [T]. *)
Lemma pow_in_range_prev bits base (n : nat) :
  2 <= bits -> in_range bits (base ^ Z.of_nat (S n)) -> in_range bits (base ^ Z.of_nat n).
Proof.
  intros H2. rewrite Nat2Z.inj_succ, Z.pow_succ_r by lia.
  assert (2 ^ 1 <= 2 ^ (bits - 1)) as Hh by (apply Z.pow_le_mono_r; lia).
  change (2 ^ 1) with 2 in Hh.
  unfold in_range, min_of, max_of. intros Hnext.
  destruct (Z_le_gt_dec (Z.abs base) 1) as [Hsmall | Hbig].
  - pose proof (pow_small_base base n Hsmall). lia.
  - assert (Z.abs base * Z.abs (base ^ Z.of_nat n) <= 2 ^ (bits - 1)) as Habs
      by (rewrite <- Z.abs_mul; lia).
    pose proof (Z.abs_nonneg (base ^ Z.of_nat n)) as Hp.
    assert (2 * Z.abs (base ^ Z.of_nat n) <= 2 ^ (bits - 1)) as Hhalf.
    { revert Hbig Habs Hp.
      generalize (Z.abs base), (Z.abs (base ^ Z.of_nat n)), (2 ^ (bits - 1)).
      intros x y h Hx Hxy Hy. nia. }
    lia.
Qed.

Section PowersStrict.

Variable B : build.
Variable bits : Z.
Hypothesis sized : well_sized B bits.
Hypothesis strict : on_overflow B = overflow_policy.fail.
Hypothesis reliable : use_builtin_overflow_ops B = true \/ product_stays B bits.
Variable base : Z.
Hypothesis base_in_range : in_range bits base.

(** One round of the loop, entered with a power of the base. *)
Lemma checked_mul_power (n : nat) :
  in_range bits (base ^ Z.of_nat n) ->
  checked_mul B bits false (base ^ Z.of_nat n) base
  = if fits bits (base ^ Z.of_nat (S n)) then Ret (base ^ Z.of_nat (S n))
    else Fail "signed overflow in multiplication".
Proof.
  intros Hn. pose proof (bits_pos B bits sized) as Hpos.
  pose proof (pow2_half_pos bits Hpos) as Hp.
  assert (2 <= bits) as H2 by (destruct sized; assumption).
  assert (2 ^ 1 <= 2 ^ (bits - 1)) as Hh by (apply Z.pow_le_mono_r; lia).
  change (2 ^ 1) with 2 in Hh.
  rewrite Nat2Z.inj_succ, Z.pow_succ_r, (Z.mul_comm base) by lia.
  apply checked_mul_strict_eq; try assumption.
  destruct reliable as [Hbuiltin | [Hwide | Hnarrow]];
    [left; assumption | right; right | right; left; assumption].
  split; [assumption |]. intros [Hpow ->].
  apply (pow_not_minus_one (min_of bits) n); [unfold min_of; lia | assumption].
Qed.

Lemma pow_loop_fail_exact (n : nat) :
  pow_loop B bits false base n 1
  = if fits bits (base ^ Z.of_nat n) then Ret (base ^ Z.of_nat n)
    else Fail "signed overflow in multiplication".
Proof.
  assert (2 <= bits) as H2 by (destruct sized; assumption).
  induction n as [| n IH].
  - cbn. rewrite (proj2 (fits_in_range bits 1)); [reflexivity |].
    apply small_in_range; lia.
  - rewrite pow_loop_succ, IH.
    destruct (fits bits (base ^ Z.of_nat n)) eqn:Hn; cbn [bind].
    + apply checked_mul_power, fits_in_range, Hn.
    + assert (fits bits (base ^ Z.of_nat (S n)) = false) as ->; [| reflexivity].
      apply fits_false. intros Hnext. apply fits_false in Hn. apply Hn.
      apply pow_in_range_prev; assumption.
Qed.

End PowersStrict.

(** X20. Under the [fail] overflow policy, at run time, with the overflow
    builtins or where the product in [U] stays in the type it is computed
    in, [checked_pow] returns the exact power of a value of [T] when it is
    a value of [T], and reports "signed overflow in multiplication"
    otherwise; the operands [-1] and [min(T)] that the portable
    [overflowing_mul] cannot handle never meet in the loop. *)
Theorem checked_pow_fail_exact (B : build) (bits base : Z) (exponent : N) :
  well_sized B bits -> on_overflow B = overflow_policy.fail ->
  use_builtin_overflow_ops B = true \/ product_stays B bits ->
  in_range bits base ->
  checked_pow B bits false base exponent
  = if fits bits (base ^ Z.of_N exponent) then Ret (base ^ Z.of_N exponent)
    else Fail "signed overflow in multiplication".
Proof.
  intros sized Hpol Hreliable Hbase. unfold checked_pow.
  rewrite (pow_loop_fail_exact B bits sized Hpol Hreliable base Hbase).
  rewrite N_nat_Z. reflexivity.
Qed.

Lemma checked_pow_fail_exact_witness :
  checked_pow portable_strict 32 false (-2) 31 = Ret (-2147483648).
Proof.
  apply (checked_pow_fail_exact portable_strict 32 (-2) 31).
  - concrete_widths.
  - reflexivity.
  - right. unfold product_stays; simpl; lia.
  - concrete_range.
Defined.

(** ** Products of several factors *)

Section Variadic.

Variable B : build.
Variable bits : Z.
Variable constant_evaluated : bool.

(** The loop of [checked_pow], entered with [res] for one round or more, is
    the product of [res] and as many copies of the base. *)
Lemma pow_loop_variadic (base : Z) (n : nat) (res : Z) :
  pow_loop B bits constant_evaluated base (S n) res
  = variadic_checked_mul_impl B bits constant_evaluated res base (List.repeat base n).
Proof.
  revert res. induction n as [| n IH]; intros res.
  - cbn. apply bind_ret_r.
  - cbn [List.repeat variadic_checked_mul_impl].
    change (pow_loop B bits constant_evaluated base (S (S n)) res)
      with (r <- checked_mul B bits constant_evaluated res base ;;
            pow_loop B bits constant_evaluated base (S n) r).
    destruct (checked_mul B bits constant_evaluated res base) as [r | m |];
      cbn [bind]; [apply IH | reflexivity..].
Qed.

End Variadic.

(** X21. [checked_pow] with an exponent of one or more is
    [variadic_checked_mul] of [T{1}] and as many copies of the base, in
    every build, under every policy. *)
Theorem checked_pow_variadic (B : build) (bits : Z) (constant_evaluated : bool)
  (base : Z) (exponent : N) :
  checked_pow B bits constant_evaluated base (N.succ exponent)
  = variadic_checked_mul B bits constant_evaluated 1 base
      (List.repeat base (N.to_nat exponent)).
Proof.
  unfold checked_pow, variadic_checked_mul. rewrite N2Nat.inj_succ.
  apply pow_loop_variadic.
Qed.

Section VariadicStrict.

Variable B : build.
Variable bits : Z.
Hypothesis sized : well_sized B bits.
Hypothesis strict : on_overflow B = overflow_policy.fail.

Lemma variadic_strict_eq (ts : list Z) :
  use_builtin_overflow_ops B = true \/ 2 * bits < int_bits B ->
  List.Forall (in_range bits) ts ->
  forall lhs rhs, in_range bits lhs -> in_range bits rhs ->
  variadic_checked_mul_impl B bits false lhs rhs ts
  = if fits bits (lhs * rhs) && products_fit bits (lhs * rhs) ts
    then Ret (product_from (lhs * rhs) ts)
    else Fail "signed overflow in multiplication".
Proof.
  intros Hreliable Hts.
  assert (forall a b, in_range bits a -> in_range bits b ->
            checked_mul B bits false a b
            = if fits bits (a * b) then Ret (a * b)
              else Fail "signed overflow in multiplication") as Hmul.
  { intros a b Ha Hb. apply checked_mul_strict_eq; try assumption.
    destruct Hreliable; [left | right; left]; assumption. }
  induction Hts as [| t ts Ht Hts IH]; intros lhs rhs Hl Hr.
  - cbn [variadic_checked_mul_impl products_fit product_from List.fold_left].
    rewrite Hmul by assumption. rewrite andb_true_r. reflexivity.
  - cbn [variadic_checked_mul_impl products_fit product_from List.fold_left].
    rewrite Hmul by assumption.
    destruct (fits bits (lhs * rhs)) eqn:Hfit; cbn [bind andb]; [| reflexivity].
    apply IH; [apply fits_in_range, Hfit | assumption].
Qed.

Lemma variadic_strict_sound (ts : list Z) :
  List.Forall (in_range bits) ts ->
  forall lhs rhs, in_range bits lhs -> in_range bits rhs ->
  (forall v, variadic_checked_mul_impl B bits false lhs rhs ts = Ret v ->
             v = product_from (lhs * rhs) ts /\ in_range bits v
             /\ fits bits (lhs * rhs) && products_fit bits (lhs * rhs) ts = true)
  /\ (forall msg, variadic_checked_mul_impl B bits false lhs rhs ts = Fail msg ->
        msg = "signed overflow in multiplication"
        /\ fits bits (lhs * rhs) && products_fit bits (lhs * rhs) ts = false).
Proof.
  intros Hts. induction Hts as [| t ts Ht Hts IH]; intros lhs rhs Hl Hr;
    destruct (checked_mul_strict_sound B bits lhs rhs sized strict Hl Hr) as [Hret Hfail].
  - cbn [variadic_checked_mul_impl products_fit product_from List.fold_left]. split.
    + intros v Hv. destruct (Hret v Hv) as [-> Hin].
      rewrite (proj2 (fits_in_range _ _) Hin).
      split; [reflexivity | split; [assumption | reflexivity]].
    + intros msg Hm. destruct (Hfail msg Hm) as [-> Hout].
      rewrite (proj2 (fits_false _ _) Hout). split; reflexivity.
  - cbn [variadic_checked_mul_impl products_fit product_from List.fold_left].
    destruct (checked_mul B bits false lhs rhs) as [r | m |]; cbn [bind].
    + destruct (Hret r eq_refl) as [-> Hin].
      rewrite (proj2 (fits_in_range _ _) Hin). cbn [andb].
      apply IH; assumption.
    + destruct (Hfail m eq_refl) as [-> Hout].
      rewrite (proj2 (fits_false _ _) Hout). cbn [andb]. split.
      * intros v [=].
      * intros msg [= <-]. split; reflexivity.
    + split; intros ? [=].
Qed.

End VariadicStrict.

(** X22. Under the [fail] overflow policy, at run time, with the overflow
    builtins or in a type of less than half the width of [int],
    [variadic_checked_mul] multiplies from left to right: it returns the
    exact product of all factors when the product of the first two, and then
    every product on the way, is a value of [T]; otherwise it reports
    "signed overflow in multiplication", also when the product of all
    factors would be a value of [T]. *)
Theorem variadic_checked_mul_fail_exact (B : build) (bits lhs rhs : Z) (ts : list Z) :
  well_sized B bits -> on_overflow B = overflow_policy.fail ->
  use_builtin_overflow_ops B = true \/ 2 * bits < int_bits B ->
  in_range bits lhs -> in_range bits rhs -> List.Forall (in_range bits) ts ->
  variadic_checked_mul B bits false lhs rhs ts
  = if fits bits (lhs * rhs) && products_fit bits (lhs * rhs) ts
    then Ret (product_from (lhs * rhs) ts)
    else Fail "signed overflow in multiplication".
Proof.
  intros sized Hpol Hreliable Hl Hr Hts.
  apply variadic_strict_eq; assumption.
Qed.

Lemma variadic_checked_mul_fail_exact_witness :
  variadic_checked_mul builtin_strict 8 false 64 2 (0 :: nil)
  = Fail "signed overflow in multiplication".
Proof.
  apply (variadic_checked_mul_fail_exact builtin_strict 8 64 2 (0 :: nil)).
  - concrete_widths.
  - reflexivity.
  - left. reflexivity.
  - concrete_range.
  - concrete_range.
  - repeat (apply List.Forall_cons; [concrete_range |]). apply List.Forall_nil.
Defined.

(** X23. Under the [fail] overflow policy, at run time and in every build,
    [variadic_checked_mul] never returns a wrong product: a returned value
    is the exact product of all factors, reached through values of [T]
    only; a reported failure is "signed overflow in multiplication", for
    factors one of whose products on the way is not a value of [T]. *)
Theorem variadic_checked_mul_fail_sound (B : build) (bits lhs rhs : Z) (ts : list Z) :
  well_sized B bits -> on_overflow B = overflow_policy.fail ->
  in_range bits lhs -> in_range bits rhs -> List.Forall (in_range bits) ts ->
  (forall v, variadic_checked_mul B bits false lhs rhs ts = Ret v ->
             v = product_from (lhs * rhs) ts /\ in_range bits v
             /\ fits bits (lhs * rhs) && products_fit bits (lhs * rhs) ts = true)
  /\ (forall msg, variadic_checked_mul B bits false lhs rhs ts = Fail msg ->
        msg = "signed overflow in multiplication"
        /\ fits bits (lhs * rhs) && products_fit bits (lhs * rhs) ts = false).
Proof.
  intros sized Hpol Hl Hr Hts.
  apply variadic_strict_sound; assumption.
Qed.

Lemma variadic_checked_mul_fail_sound_witness :
  (forall v, variadic_checked_mul portable_strict 32 false 3 5 (7 :: -11 :: nil) = Ret v ->
             v = product_from (3 * 5) (7 :: -11 :: nil) /\ in_range 32 v
             /\ fits 32 (3 * 5) && products_fit 32 (3 * 5) (7 :: -11 :: nil) = true)
  /\ (forall msg,
        variadic_checked_mul portable_strict 32 false 3 5 (7 :: -11 :: nil) = Fail msg ->
        msg = "signed overflow in multiplication"
        /\ fits 32 (3 * 5) && products_fit 32 (3 * 5) (7 :: -11 :: nil) = false).
Proof.
  apply (variadic_checked_mul_fail_sound portable_strict 32 3 5 (7 :: -11 :: nil)).
  - concrete_widths.
  - reflexivity.
  - concrete_range.
  - concrete_range.
  - repeat (apply List.Forall_cons; [concrete_range |]). apply List.Forall_nil.
Defined.

Example variadic_checked_mul_four :
  variadic_checked_mul portable_strict 32 false 3 5 (7 :: -11 :: nil) = Ret (-1155).
Proof. reflexivity. Qed.

(** ** Round trips *)

Lemma to_signed_sub_l bits x y :
  1 <= bits -> to_signed bits (to_signed bits x - y) = to_signed bits (x - y).
Proof.
  intros H. apply to_signed_of_congruent.
  rewrite Zminus_mod, to_signed_congruent, <- Zminus_mod by assumption. reflexivity.
Qed.

Lemma to_signed_add_l bits x y :
  1 <= bits -> to_signed bits (to_signed bits x + y) = to_signed bits (x + y).
Proof.
  intros H. apply to_signed_of_congruent.
  rewrite Zplus_mod, to_signed_congruent, <- Zplus_mod by assumption. reflexivity.
Qed.

(** X24. Wrapping subtraction undoes wrapping addition and the other way
    round: for a value [a] of [T] and any [b],
    [wrapping_sub(wrapping_add(a, b), b)] and
    [wrapping_add(wrapping_sub(a, b), b)] are [a]. *)
Theorem wrapping_add_sub_round_trip (B : build) (bits a b : Z) :
  well_sized B bits -> in_range bits a ->
  (exists s, wrapping_add B bits a b = Ret s /\ wrapping_sub B bits s b = Ret a)
  /\ (exists d, wrapping_sub B bits a b = Ret d /\ wrapping_add B bits d b = Ret a).
Proof.
  intros sized Ha. pose proof (bits_pos B bits sized) as Hpos. split.
  - exists (to_signed bits (a + b)). split; [apply wrapping_add_eq, sized |].
    rewrite (wrapping_sub_eq B bits sized), to_signed_sub_l by assumption.
    replace (a + b - b) with a by lia. rewrite to_signed_id by assumption. reflexivity.
  - exists (to_signed bits (a - b)). split; [apply wrapping_sub_eq, sized |].
    rewrite (wrapping_add_eq B bits sized), to_signed_add_l by assumption.
    replace (a - b + b) with a by lia. rewrite to_signed_id by assumption. reflexivity.
Qed.

Lemma wrapping_add_sub_round_trip_witness :
  (exists s, wrapping_add portable_strict 8 100 100 = Ret s
             /\ wrapping_sub portable_strict 8 s 100 = Ret 100)
  /\ (exists d, wrapping_sub portable_strict 8 100 100 = Ret d
                /\ wrapping_add portable_strict 8 d 100 = Ret 100).
Proof.
  apply (wrapping_add_sub_round_trip portable_strict 8 100 100).
  - concrete_widths.
  - concrete_range.
Defined.

Section RoundTrips.

Variable B : build.
Variable bits : Z.
Hypothesis sized : well_sized B bits.
Variable constant_evaluated : bool.

(** What [checked_add] returns is the wrapped sum, under every policy. *)
Lemma checked_add_returns a b s :
  in_range bits a -> in_range bits b ->
  checked_add B bits constant_evaluated a b = Ret s -> s = to_signed bits (a + b).
Proof.
  intros Ha Hb. unfold checked_add.
  assert (forall z, return_as_T bits (signed_arith B bits z) = Ret s ->
                    s = to_signed bits z) as Hraw.
  { intros z. unfold return_as_T, signed_arith.
    destruct (fits (promoted_bits B bits) z); cbn; [| discriminate].
    intros [= <-]. reflexivity. }
  destruct constant_evaluated; [apply Hraw |].
  destruct (on_overflow B); [apply Hraw | |].
  - rewrite (wrapping_add_eq B bits sized). intros [= <-]. reflexivity.
  - rewrite (overflowing_add_eq B bits sized) by assumption. cbn.
    destruct (fits bits (a + b)); cbn; [| discriminate]. intros [= <-]. reflexivity.
Qed.

(** A sum that left [T] is returned only where [checked_sub] wraps as
    well. *)
Lemma checked_sub_after_wrapped_add a b s :
  in_range bits a -> in_range bits b -> ~ in_range bits (a + b) ->
  checked_add B bits constant_evaluated a b = Ret s ->
  checked_sub B bits constant_evaluated s b = Ret (to_signed bits (s - b)).
Proof.
  intros Ha Hb Hout. pose proof (bits_pos B bits sized) as Hpos.
  pose proof (pow2_half_pos bits Hpos) as Hp.
  pose proof (pow2_double bits Hpos) as Hd.
  pose proof (proj2 (fits_false bits (a + b)) Hout) as Hfit.
  assert (return_as_T bits (signed_arith B bits (a + b)) = Ret s ->
          return_as_T bits (signed_arith B bits (s - b)) = Ret (to_signed bits (s - b)))
    as Hraw.
  { unfold return_as_T, signed_arith, promoted_bits.
    destruct (Z.ltb_spec bits (int_bits B)) as [Hnarrow | Hwide].
    - rewrite Z.max_r by lia.
      destruct (fits (int_bits B) (a + b)); cbn; [| discriminate].
      intros [= <-].
      pose proof (to_signed_in_range bits (a + b) Hpos) as Hs.
      assert (fits (int_bits B) (to_signed bits (a + b) - b) = true) as ->;
        [| reflexivity].
      apply fits_in_range. unfold in_range, min_of, max_of in *.
      assert (2 ^ bits <= 2 ^ (int_bits B - 1)) by (apply Z.pow_le_mono_r; lia).
      lia.
    - rewrite Z.max_l by lia. rewrite Hfit. cbn. discriminate. }
  unfold checked_add, checked_sub.
  destruct constant_evaluated; [exact Hraw |].
  destruct (on_overflow B); [exact Hraw | |].
  - intros _. apply wrapping_sub_eq, sized.
  - rewrite (overflowing_add_eq B bits sized) by assumption. cbn.
    rewrite Hfit. cbn. discriminate.
Qed.

Lemma checked_sub_in_range a b :
  in_range bits a -> in_range bits b -> in_range bits (a - b) ->
  checked_sub B bits constant_evaluated a b = Ret (a - b).
Proof.
  intros Ha Hb Hab. pose proof (bits_pos B bits sized) as Hpos.
  unfold checked_sub.
  destruct constant_evaluated; [apply return_exact; assumption |].
  destruct (on_overflow B).
  - apply return_exact; assumption.
  - rewrite (wrapping_sub_eq B bits sized), to_signed_id by assumption. reflexivity.
  - rewrite (overflowing_sub_eq B bits sized) by assumption. cbn.
    rewrite (proj2 (fits_in_range bits (a - b)) Hab), to_signed_id by assumption.
    reflexivity.
Qed.

End RoundTrips.

(** X25. Whenever [checked_add(a, b)] returns a value [s], under any policy,
    at run time or in a constant evaluation, [checked_sub(s, b)] returns
    [a]. *)
Theorem checked_add_sub_round_trip (B : build) (bits : Z) (constant_evaluated : bool)
  (a b s : Z) :
  well_sized B bits -> in_range bits a -> in_range bits b ->
  checked_add B bits constant_evaluated a b = Ret s ->
  checked_sub B bits constant_evaluated s b = Ret a.
Proof.
  intros sized Ha Hb Hadd. pose proof (bits_pos B bits sized) as Hpos.
  pose proof (checked_add_returns B bits sized constant_evaluated a b s Ha Hb Hadd) as Hs.
  destruct (fits bits (a + b)) eqn:Hfit.
  - apply fits_in_range in Hfit.
    rewrite to_signed_id in Hs by assumption. subst s.
    replace a with (a + b - b) at 2 by lia.
    apply checked_sub_in_range; try assumption.
    replace (a + b - b) with a by lia. assumption.
  - apply fits_false in Hfit.
    rewrite (checked_sub_after_wrapped_add B bits sized constant_evaluated a b s)
      by assumption.
    subst s. rewrite to_signed_sub_l by assumption.
    replace (a + b - b) with a by lia. rewrite to_signed_id by assumption. reflexivity.
Qed.

Lemma checked_add_sub_round_trip_witness :
  checked_sub portable_wrap 8 false (-56) 100 = Ret 100.
Proof.
  apply (checked_add_sub_round_trip portable_wrap 8 false 100 100 (-56)).
  - concrete_widths.
  - concrete_range.
  - concrete_range.
  - reflexivity.
Defined.

(** X26. Under the [fail] overflow policy, at run time and in every build,
    whenever [checked_mul(a, b)] returns a product [p] and [a] is not zero,
    [checked_div(p, a)] returns [b] and [checked_mod(p, a)] returns [0],
    under both divide-by-zero policies. *)
Theorem checked_mul_div_round_trip (B : build) (bits a b p : Z) :
  well_sized B bits -> on_overflow B = overflow_policy.fail ->
  in_range bits a -> in_range bits b -> a <> 0 ->
  checked_mul B bits false a b = Ret p ->
  checked_div B bits false p a = Ret b /\ checked_mod B bits false p a = Ret 0.
Proof.
  intros sized Hpol Ha Hb Hnz Hmul. pose proof (bits_pos B bits sized) as Hpos.
  pose proof (pow2_half_pos bits Hpos) as Hp.
  destruct (checked_mul_strict_sound B bits a b sized Hpol Ha Hb) as [Hret _].
  destruct (Hret p Hmul) as [-> Hin].
  destruct (checked_div_nonzero B bits false (a * b) a Hnz) as [-> ->].
  rewrite native_mod_div, (native_div_eq B bits sized (a * b) a Hin Hnz).
  - cbn [bind return_as_T].
    rewrite (Z.mul_comm a b), Z.quot_mul, Z.rem_mul by assumption.
    rewrite !to_signed_id; try assumption; [split; reflexivity |].
    apply small_in_range; [destruct sized; assumption | lia].
  - intros [Hmin ->]. unfold in_range, min_of, max_of in *. lia.
Qed.

Lemma checked_mul_div_round_trip_witness :
  checked_div portable_strict 16 false (-32768) 128 = Ret (-256)
  /\ checked_mod portable_strict 16 false (-32768) 128 = Ret 0.
Proof.
  apply (checked_mul_div_round_trip portable_strict 16 128 (-256) (-32768)).
  - concrete_widths.
  - reflexivity.
  - concrete_range.
  - concrete_range.
  - discriminate.
  - reflexivity.
Defined.
